(** * graph.js: a root node, two children and a tunable camera frustum

    A shallow embedding of [src/graph.js] and the properties of its
    geometry and parameter state.

    Numbers.  JavaScript numbers are IEEE-754 doubles.  In the model of the
    page they are the real numbers of the Standard Library, so [Math.PI] is
    [PI], [Math.sin] is [sin], [Math.max] is [Rmax] and so on: the
    statements about one key press, about the clamps, about what an event
    leaves alone and about the geometry at the current angle read the
    program without rounding.  What several presses of a key add up to does
    depend on the rounding of each sum; the module [Float64] therefore
    transcribes the arithmetic of [onKeyDown] on the kernel's binary64
    floats, and the statement about nine and ten presses of ArrowRight is
    made there.

    Objects.  Every [new THREE.Mesh(...)] (or helper object) yields a fresh
    handle into a heap of objects; the module-level [let] variables of
    graph.js hold handles, [undefined] being [None].  Dereferencing
    [undefined] throws in JavaScript and is the failure of the monad [M].

    three.js.  The few operations of the library that graph.js calls are
    transcribed in the modules [V3], [Rot] and in [Object3D_lookAt],
    [Object3D_rotateX], [Scene_add], [Scene_remove] from the library's
    sources (Vector3.js, Matrix4.js, Object3D.js, PerspectiveCamera.js). *)

From Stdlib Require Import Reals Lra Lia.
From Stdlib Require PrimFloat.
From stdpp Require Import base option list gmap strings.

Open Scope R_scope.

(** ** three.js: vectors *)

Module V3.

Record t := mk { x : R; y : R; z : R }.

(** [new THREE.Vector3()] *)
Definition zero : t := mk 0 0 0.

(** [subVectors(a, b)]: component-wise [a - b]. *)
Definition subVectors (a b : t) : t :=
  mk (x a - x b) (y a - y b) (z a - z b).

(** [p.addScaledVector(v, s)]: [p.x += v.x * s], ... *)
Definition addScaledVector (p v : t) (s : R) : t :=
  mk (x p + x v * s) (y p + y v * s) (z p + z v * s).

Definition lengthSq (v : t) : R := x v * x v + y v * y v + z v * z v.

(** [Math.sqrt(x*x + y*y + z*z)] *)
Definition length (v : t) : R := sqrt (lengthSq v).

Definition multiplyScalar (v : t) (s : R) : t :=
  mk (x v * s) (y v * s) (z v * s).

(** [divideScalar(s)] is [multiplyScalar(1 / s)]. *)
Definition divideScalar (v : t) (s : R) : t := multiplyScalar v (1 / s).

(** [normalize()] is [divideScalar(this.length() || 1)]. *)
Definition normalize (v : t) : t :=
  divideScalar v (if Req_dec_T (length v) 0 then 1 else length v).

Definition crossVectors (a b : t) : t :=
  mk (y a * z b - z a * y b) (z a * x b - x a * z b) (x a * y b - y a * x b).

(** Two vectors point the same way: one is a positive multiple of the
    other. *)
Definition sameDirection (a b : t) : Prop :=
  exists k : R, 0 < k /\ a = multiplyScalar b k.

End V3.

(** ** three.js: orientations

  three.js keeps an object's orientation as a unit quaternion.  Here an
  orientation is the rotation matrix that quaternion stands for, given by
  its three columns: the world-space images of the object's local X, Y and
  Z axes.  [Quaternion.multiply] is then the matrix product. *)

Module Rot.

Record t := mk { ex : V3.t; ey : V3.t; ez : V3.t }.

Definition identity : t :=
  mk (V3.mk 1 0 0) (V3.mk 0 1 0) (V3.mk 0 0 1).

(** The world-space image of the local vector [v]. *)
Definition apply (r : t) (v : V3.t) : V3.t :=
  V3.mk (V3.x (ex r) * V3.x v + V3.x (ey r) * V3.y v + V3.x (ez r) * V3.z v)
        (V3.y (ex r) * V3.x v + V3.y (ey r) * V3.y v + V3.y (ez r) * V3.z v)
        (V3.z (ex r) * V3.x v + V3.z (ey r) * V3.y v + V3.z (ez r) * V3.z v).

(** [q.multiply(q1)]: first [q1], then [q]. *)
Definition multiply (q q1 : t) : t :=
  mk (apply q (ex q1)) (apply q (ey q1)) (apply q (ez q1)).

(** [setFromAxisAngle((1,0,0), angle)]: the rotation about the X axis. *)
Definition aboutX (angle : R) : t :=
  mk (V3.mk 1 0 0)
     (V3.mk 0 (cos angle) (sin angle))
     (V3.mk 0 (- sin angle) (cos angle)).

(** [Matrix4.lookAt(eye, target, up)], rotation part: the Z column is the
    unit vector from [target] to [eye]; when it is parallel to [up] it is
    nudged by 0.0001 so that the cross product is not zero. *)
Definition lookAt (eye target up : V3.t) : t :=
  let z0 := V3.subVectors eye target in
  let z1 := if Req_dec_T (V3.lengthSq z0) 0
            then V3.mk (V3.x z0) (V3.y z0) 1 else z0 in
  let z2 := V3.normalize z1 in
  let x0 := V3.crossVectors up z2 in
  let zx :=
    if Req_dec_T (V3.lengthSq x0) 0 then
      let z3 := if Req_dec_T (Rabs (V3.z up)) 1
                then V3.mk (V3.x z2 + 0.0001) (V3.y z2) (V3.z z2)
                else V3.mk (V3.x z2) (V3.y z2) (V3.z z2 + 0.0001) in
      let z4 := V3.normalize z3 in
      (z4, V3.crossVectors up z4)
    else (z2, x0) in
  let x1 := V3.normalize (snd zx) in
  mk x1 (V3.crossVectors (fst zx) x1) (fst zx).

End Rot.

(** ** three.js: objects *)

(** The four numbers from which [PerspectiveCamera.updateProjectionMatrix]
    builds the projection matrix (zoom is 1 and there is no view offset).
    The matrix, its inverse and whatever is drawn from them are functions of
    these four numbers, so they stand for the matrix. *)
Record Frustum := mkFrustum {
  fr_fov : R; fr_aspect : R; fr_near : R; fr_far : R
}.

Inductive Geometry :=
| SphereGeometry (radius : R) (widthSegments heightSegments : nat)
| CylinderGeometry (radiusTop radiusBottom height : R)
                   (radialSegments heightSegments : nat)
| GridHelper (size : R) (divisions : nat)
| AxisGroup (axisLength : R)
| TextGeometry (text : string) (size height : R)
| CameraHelperGeometry (depicted : Frustum).

(** A renderable: what it draws, its colour, where it is and how it is
    turned.  A cylinder's long axis is its local Y axis. *)
Record Object3D := mkObject3D {
  geometry : Geometry;
  color : Z;
  position : V3.t;
  quaternion : Rot.t
}.

(** [new THREE.Mesh(geometry, new THREE.MeshBasicMaterial({ color }))] *)
Definition Mesh (g : Geometry) (c : Z) : Object3D :=
  mkObject3D g c V3.zero Rot.identity.

(** [Object3D.DEFAULT_UP] *)
Definition DEFAULT_UP : V3.t := V3.mk 0 1 0.

(** [o.lookAt(target)] for an object that has no parent and is neither a
    camera nor a light: its world position is its position, and the matrix
    is [lookAt(target, position, up)]. *)
Definition Object3D_lookAt (o : Object3D) (target : V3.t) : Object3D :=
  mkObject3D (geometry o) (color o) (position o)
             (Rot.lookAt target (position o) DEFAULT_UP).

(** [o.rotateX(angle)]: [quaternion.multiply(setFromAxisAngle(X, angle))]. *)
Definition Object3D_rotateX (o : Object3D) (angle : R) : Object3D :=
  mkObject3D (geometry o) (color o) (position o)
             (Rot.multiply (quaternion o) (Rot.aboutX angle)).

Definition set_position (p : V3.t) (o : Object3D) : Object3D :=
  mkObject3D (geometry o) (color o) p (quaternion o).

Definition set_geometry (g : Geometry) (o : Object3D) : Object3D :=
  mkObject3D g (color o) (position o) (quaternion o).

(** The world-space direction of a mesh's local Y axis: for a cylinder, its
    long axis. *)
Definition longAxis (o : Object3D) : V3.t :=
  Rot.apply (quaternion o) (V3.mk 0 1 0).

(** ** graph.js: configuration (lines 10-15) *)

Definition sphereRadius : R := 0.5.
Definition edgeRadius : R := 0.05.
Definition mainSphereColor : Z := 0x44aa88.
Definition childSphereColor : Z := 0x4488aa.
Definition edgeColor : Z := 0xaaaaaa.

(** ** graph.js: [createSphere] and the mesh built by [createEdge] *)

Definition sphereMesh (c : Z) : Object3D :=
  Mesh (SphereGeometry sphereRadius 32 32) c.

(** Lines 32-41 of [createEdge], on the mesh itself. *)
Definition edgeMesh (start end_ : V3.t) : Object3D :=
  let direction := V3.subVectors end_ start in
  let length := V3.length direction in
  let edgeGeometry := CylinderGeometry edgeRadius edgeRadius length 8 1 in
  let edge := Mesh edgeGeometry edgeColor in
  let edge := set_position start edge in
  let edge := set_position (V3.addScaledVector (position edge) direction 0.5) edge in
  let edge := Object3D_lookAt edge end_ in
  let edge := Object3D_rotateX edge (PI / 2) in
  edge.

(** ** three.js: the perspective camera *)

Record Camera := mkCamera {
  cam_fov : R;
  cam_aspect : R;
  cam_near : R;
  cam_far : R;
  projectionMatrix : Frustum
}.

(** [camera.updateProjectionMatrix()] *)
Definition updateProjectionMatrix (c : Camera) : Camera :=
  mkCamera (cam_fov c) (cam_aspect c) (cam_near c) (cam_far c)
           (mkFrustum (cam_fov c) (cam_aspect c) (cam_near c) (cam_far c)).

(** [new THREE.PerspectiveCamera(fov, aspect, near, far)]; the constructor
    ends with [updateProjectionMatrix()]. *)
Definition PerspectiveCamera (fov aspect near far : R) : Camera :=
  updateProjectionMatrix (mkCamera fov aspect near far (mkFrustum fov aspect near far)).

(** ** graph.js: the module-level variables (lines 6-8 and 17-23)

    [controls] only moves the camera, which is not modelled.
    [createEdgeCalls] is a history variable: the arguments of every call of
    [createEdge] so far, latest first.  No operation reads it. *)

Definition handle := nat.

Record World := mkWorld {
  heap : gmap handle Object3D;
  next : handle;
  renderer : option (R * R);
  scene : option (list handle);
  camera : option Camera;
  mainSphere : option handle;
  childSphere1 : option handle;
  childSphere2 : option handle;
  edge1 : option handle;
  edge2 : option handle;
  cameraHelper : option handle;
  fov : R;
  near : R;
  far : R;
  angleBetweenChildren : R;
  createEdgeCalls : list (V3.t * V3.t)
}.

(** The state when the script has been loaded and [main] has not run. *)
Definition boot : World :=
  mkWorld ∅ 0%nat None None None None None None None None None
          75 0.1 50 (PI / 4) [].

Definition set_heap (v : gmap handle Object3D) (w : World) : World :=
  mkWorld v (next w) (renderer w) (scene w) (camera w) (mainSphere w)
    (childSphere1 w) (childSphere2 w) (edge1 w) (edge2 w) (cameraHelper w)
    (fov w) (near w) (far w) (angleBetweenChildren w) (createEdgeCalls w).
Definition set_next (v : handle) (w : World) : World :=
  mkWorld (heap w) v (renderer w) (scene w) (camera w) (mainSphere w)
    (childSphere1 w) (childSphere2 w) (edge1 w) (edge2 w) (cameraHelper w)
    (fov w) (near w) (far w) (angleBetweenChildren w) (createEdgeCalls w).
Definition set_renderer (v : option (R * R)) (w : World) : World :=
  mkWorld (heap w) (next w) v (scene w) (camera w) (mainSphere w)
    (childSphere1 w) (childSphere2 w) (edge1 w) (edge2 w) (cameraHelper w)
    (fov w) (near w) (far w) (angleBetweenChildren w) (createEdgeCalls w).
Definition set_scene (v : option (list handle)) (w : World) : World :=
  mkWorld (heap w) (next w) (renderer w) v (camera w) (mainSphere w)
    (childSphere1 w) (childSphere2 w) (edge1 w) (edge2 w) (cameraHelper w)
    (fov w) (near w) (far w) (angleBetweenChildren w) (createEdgeCalls w).
Definition set_camera (v : option Camera) (w : World) : World :=
  mkWorld (heap w) (next w) (renderer w) (scene w) v (mainSphere w)
    (childSphere1 w) (childSphere2 w) (edge1 w) (edge2 w) (cameraHelper w)
    (fov w) (near w) (far w) (angleBetweenChildren w) (createEdgeCalls w).
Definition set_mainSphere (v : option handle) (w : World) : World :=
  mkWorld (heap w) (next w) (renderer w) (scene w) (camera w) v
    (childSphere1 w) (childSphere2 w) (edge1 w) (edge2 w) (cameraHelper w)
    (fov w) (near w) (far w) (angleBetweenChildren w) (createEdgeCalls w).
Definition set_childSphere1 (v : option handle) (w : World) : World :=
  mkWorld (heap w) (next w) (renderer w) (scene w) (camera w) (mainSphere w)
    v (childSphere2 w) (edge1 w) (edge2 w) (cameraHelper w)
    (fov w) (near w) (far w) (angleBetweenChildren w) (createEdgeCalls w).
Definition set_childSphere2 (v : option handle) (w : World) : World :=
  mkWorld (heap w) (next w) (renderer w) (scene w) (camera w) (mainSphere w)
    (childSphere1 w) v (edge1 w) (edge2 w) (cameraHelper w)
    (fov w) (near w) (far w) (angleBetweenChildren w) (createEdgeCalls w).
Definition set_edge1 (v : option handle) (w : World) : World :=
  mkWorld (heap w) (next w) (renderer w) (scene w) (camera w) (mainSphere w)
    (childSphere1 w) (childSphere2 w) v (edge2 w) (cameraHelper w)
    (fov w) (near w) (far w) (angleBetweenChildren w) (createEdgeCalls w).
Definition set_edge2 (v : option handle) (w : World) : World :=
  mkWorld (heap w) (next w) (renderer w) (scene w) (camera w) (mainSphere w)
    (childSphere1 w) (childSphere2 w) (edge1 w) v (cameraHelper w)
    (fov w) (near w) (far w) (angleBetweenChildren w) (createEdgeCalls w).
Definition set_cameraHelper (v : option handle) (w : World) : World :=
  mkWorld (heap w) (next w) (renderer w) (scene w) (camera w) (mainSphere w)
    (childSphere1 w) (childSphere2 w) (edge1 w) (edge2 w) v
    (fov w) (near w) (far w) (angleBetweenChildren w) (createEdgeCalls w).
Definition set_fov (v : R) (w : World) : World :=
  mkWorld (heap w) (next w) (renderer w) (scene w) (camera w) (mainSphere w)
    (childSphere1 w) (childSphere2 w) (edge1 w) (edge2 w) (cameraHelper w)
    v (near w) (far w) (angleBetweenChildren w) (createEdgeCalls w).
Definition set_near (v : R) (w : World) : World :=
  mkWorld (heap w) (next w) (renderer w) (scene w) (camera w) (mainSphere w)
    (childSphere1 w) (childSphere2 w) (edge1 w) (edge2 w) (cameraHelper w)
    (fov w) v (far w) (angleBetweenChildren w) (createEdgeCalls w).
Definition set_far (v : R) (w : World) : World :=
  mkWorld (heap w) (next w) (renderer w) (scene w) (camera w) (mainSphere w)
    (childSphere1 w) (childSphere2 w) (edge1 w) (edge2 w) (cameraHelper w)
    (fov w) (near w) v (angleBetweenChildren w) (createEdgeCalls w).
Definition set_angleBetweenChildren (v : R) (w : World) : World :=
  mkWorld (heap w) (next w) (renderer w) (scene w) (camera w) (mainSphere w)
    (childSphere1 w) (childSphere2 w) (edge1 w) (edge2 w) (cameraHelper w)
    (fov w) (near w) (far w) v (createEdgeCalls w).
Definition set_createEdgeCalls (v : list (V3.t * V3.t)) (w : World) : World :=
  mkWorld (heap w) (next w) (renderer w) (scene w) (camera w) (mainSphere w)
    (childSphere1 w) (childSphere2 w) (edge1 w) (edge2 w) (cameraHelper w)
    (fov w) (near w) (far w) (angleBetweenChildren w) v.

(** ** Statements: state passing with failure

    [None] is an uncaught exception: a [TypeError] for a property read on
    [undefined], or the error that a constructor throws. *)

Definition M (A : Type) : Type := World -> option (A * World).

#[export] Instance M_ret : MRet M := fun A a w => Some (a, w).
#[export] Instance M_bind : MBind M := fun A B f m w =>
  match m w with
  | Some (a, w') => f a w'
  | None => None
  end.

(** [throw] *)
Definition throw {A} : M A := fun _ => None.

(** Reading a variable. *)
Definition get {A} (var : World -> A) : M A := fun w => Some (var w, w).

(** Reading a variable that has to hold an object. *)
Definition defined {A} (var : World -> option A) : M A := fun w =>
  match var w with
  | Some a => Some (a, w)
  | None => None
  end.

(** Assigning a variable. *)
Definition assign {A} (setter : A -> World -> World) (v : A) : M unit :=
  fun w => Some (tt, setter v w).

(** [new]: a fresh handle for a new object. *)
Definition new (o : Object3D) : M handle := fun w =>
  Some (next w, set_next (S (next w)) (set_heap (<[next w := o]> (heap w)) w)).

(** Reading the object behind a handle. *)
Definition deref (h : handle) : M Object3D := fun w =>
  match heap w !! h with
  | Some o => Some (o, w)
  | None => None
  end.

(** Mutating the object behind a handle. *)
Definition update (h : handle) (f : Object3D -> Object3D) : M unit := fun w =>
  match heap w !! h with
  | Some o => Some (tt, set_heap (<[h := f o]> (heap w)) w)
  | None => None
  end.

(** ** three.js: the scene's children

    graph.js has one container, the scene, so an object's parent is the
    scene exactly when it is among the scene's children. *)

(** [children.indexOf(h)] followed by [children.splice(index, 1)]. *)
Fixpoint remove_first (h : handle) (l : list handle) : list handle :=
  match l with
  | [] => []
  | a :: l' => if decide (a = h) then l' else a :: remove_first h l'
  end.

(** [scene.remove(object)]; [indexOf(undefined)] is -1 and nothing happens. *)
Definition Scene_remove (object : option handle) : M unit :=
  children ← defined scene;
  match object with
  | Some h => assign set_scene (Some (remove_first h children))
  | None => mret tt
  end.

(** [scene.add(object)]: [object.removeFromParent()], then
    [children.push(object)]. *)
Definition Scene_add (h : handle) : M unit :=
  children ← defined scene;
  assign set_scene (Some (remove_first h children ++ [h])).

(** [cameraHelper.update()]: the helper's lines are recomputed from the
    camera's projection matrix. *)
Definition CameraHelper_update (helper : handle) : M unit :=
  cam ← defined camera;
  update helper (set_geometry (CameraHelperGeometry (projectionMatrix cam))).

(** [new THREE.CameraHelper(camera)]; the constructor ends with [update()]. *)
Definition CameraHelper : M handle :=
  cam ← defined camera;
  new (Mesh (CameraHelperGeometry (projectionMatrix cam)) 0xffffff).

(** ** graph.js: the functions *)

(** [createSphere(color)], lines 25-29. *)
Definition createSphere (c : Z) : M handle := new (sphereMesh c).

(** [createEdge(start, end)], lines 31-44.  [start] and [end] are read, never
    written, so they are passed by value. *)
Definition createEdge (start end_ : V3.t) : M handle :=
  calls ← get createEdgeCalls;
  assign set_createEdgeCalls ((start, end_) :: calls);;
  new (edgeMesh start end_).

(** [createAxisHelper()], lines 46-80: a group of three lines of length 5. *)
Definition createAxisHelper : M handle :=
  let axisLength := 5 in
  new (Mesh (AxisGroup axisLength) 0).

(** The callback of [createAxisLabels], lines 84-104, run when the font has
    arrived. *)
Definition onFontLoaded : M unit :=
  let textMaterial := 0xffffff%Z in
  xLabel ← new (set_position (V3.mk 5.5 0 0) (Mesh (TextGeometry "X" 0.5 0.1) textMaterial));
  yLabel ← new (set_position (V3.mk 0 5.5 0) (Mesh (TextGeometry "Y" 0.5 0.1) textMaterial));
  zLabel ← new (set_position (V3.mk 0 0 5.5) (Mesh (TextGeometry "Z" 0.5 0.1) textMaterial));
  Scene_add xLabel;;
  Scene_add yLabel;;
  Scene_add zLabel.

(** [updateChildPositions()], lines 107-124. *)
Definition updateChildPositions : M unit :=
  let distance := 3 in
  angle ← get angleBetweenChildren;
  let halfAngle := angle / 2 in
  c1 ← defined childSphere1;
  update c1 (set_position
    (V3.mk (sin halfAngle * distance) (- distance) (- cos halfAngle * distance)));;
  c2 ← defined childSphere2;
  update c2 (set_position
    (V3.mk (- sin halfAngle * distance) (- distance) (- cos halfAngle * distance)));;
  (* Remove old edges *)
  old1 ← get edge1;
  Scene_remove old1;;
  old2 ← get edge2;
  Scene_remove old2;;
  (* Create new edges *)
  m ← defined mainSphere;
  mainObj ← deref m;
  c1 ← defined childSphere1;
  child1 ← deref c1;
  e1 ← createEdge (position mainObj) (position child1);
  assign set_edge1 (Some e1);;
  m ← defined mainSphere;
  mainObj ← deref m;
  c2 ← defined childSphere2;
  child2 ← deref c2;
  e2 ← createEdge (position mainObj) (position child2);
  assign set_edge2 (Some e2);;
  e1 ← defined edge1;
  Scene_add e1;;
  e2 ← defined edge2;
  Scene_add e2.

(** A canvas element of the page; [webgl] tells whether the browser gives
    it a WebGL context. *)
Record Canvas := { webgl : bool }.

(** [new THREE.WebGLRenderer({ antialias: true, canvas })]: the constructor
    throws if the canvas gives no WebGL context. *)
Definition WebGLRenderer (canvas : Canvas) : M unit :=
  if webgl canvas then mret tt else throw.

(** [main()], lines 126-182; [canvas] is what
    [document.querySelector('canvas')] finds, [None] being [null], and the
    window is [innerWidth] by [innerHeight].  Without a canvas [main] logs an
    error and returns: nothing is built and no listener is registered.  The
    orbit controls, the listeners and the first animation frame leave the
    variables modelled here alone. *)
Definition main (canvas : option Canvas) (innerWidth innerHeight : R) : M unit :=
  match canvas with
  | None => (* console.error('Canvas element not found'); return *) mret tt
  | Some canvas =>
  WebGLRenderer canvas;;
  assign set_renderer (Some (innerWidth, innerHeight));;
  let aspect := innerWidth / innerHeight in
  f ← get fov;
  n ← get near;
  fa ← get far;
  assign set_camera (Some (PerspectiveCamera f aspect n fa));;
  assign set_scene (Some []);;
  (* Create spheres *)
  s ← createSphere mainSphereColor;
  assign set_mainSphere (Some s);;
  s ← createSphere childSphereColor;
  assign set_childSphere1 (Some s);;
  s ← createSphere childSphereColor;
  assign set_childSphere2 (Some s);;
  s ← defined mainSphere;
  Scene_add s;;
  s ← defined childSphere1;
  Scene_add s;;
  s ← defined childSphere2;
  Scene_add s;;
  updateChildPositions;;
  (* Add a grid for reference *)
  gridHelper ← new (Mesh (GridHelper 20 20) 0xffffff);
  Scene_add gridHelper;;
  (* Add colored axes *)
  axisHelper ← createAxisHelper;
  Scene_add axisHelper;;
  (* Add axis labels: createAxisLabels() only requests the font; the labels
     are added by [onFontLoaded] when it arrives *)
  (* Add camera helper *)
  h ← CameraHelper;
  assign set_cameraHelper (Some h);;
  h ← defined cameraHelper;
  Scene_add h
  end.

(** [onWindowResize()], lines 184-189, for a window that is now
    [innerWidth] by [innerHeight]. *)
Definition onWindowResize (innerWidth innerHeight : R) : M unit :=
  cam ← defined camera;
  assign set_camera (Some (mkCamera (cam_fov cam) (innerWidth / innerHeight)
                                    (cam_near cam) (cam_far cam)
                                    (projectionMatrix cam)));;
  cam ← defined camera;
  assign set_camera (Some (updateProjectionMatrix cam));;
  _ ← defined renderer;
  assign set_renderer (Some (innerWidth, innerHeight));;
  h ← defined cameraHelper;
  CameraHelper_update h.

(** [updateCamera()], lines 229-236; the console is not modelled. *)
Definition updateCamera : M unit :=
  cam ← defined camera;
  f ← get fov;
  n ← get near;
  fa ← get far;
  assign set_camera (Some (mkCamera f (cam_aspect cam) n fa (projectionMatrix cam)));;
  cam ← defined camera;
  assign set_camera (Some (updateProjectionMatrix cam));;
  h ← defined cameraHelper;
  CameraHelper_update h.

(** [onKeyDown(event)], lines 191-227; [key] is [event.key]. *)
Definition onKeyDown (key : string) : M unit :=
  let step := PI / 36 in
  if decide (key = "ArrowLeft") then
    a ← get angleBetweenChildren;
    assign set_angleBetweenChildren (Rmax 0 (a - step));;
    updateChildPositions
  else if decide (key = "ArrowRight") then
    a ← get angleBetweenChildren;
    assign set_angleBetweenChildren (Rmin PI (a + step));;
    updateChildPositions
  else if decide (key = "f") then
    v ← get fov;
    assign set_fov (Rmax 10 (v - 5));;
    updateCamera
  else if decide (key = "F") then
    v ← get fov;
    assign set_fov (Rmin 120 (v + 5));;
    updateCamera
  else if decide (key = "n") then
    v ← get near;
    assign set_near (Rmax 0.1 (v - 0.1));;
    updateCamera
  else if decide (key = "N") then
    v ← get near;
    assign set_near (Rmin 10 (v + 0.1));;
    updateCamera
  else if decide (key = "r") then
    v ← get far;
    assign set_far (Rmax 10 (v - 5));;
    updateCamera
  else if decide (key = "R") then
    v ← get far;
    assign set_far (Rmin 100 (v + 5));;
    updateCamera
  else mret tt.

(** [render()], lines 238-242: the controls move the camera and the frame is
    drawn; no variable modelled here changes. *)
Definition render : M unit := mret tt.

(** ** The event loop *)

Inductive Event :=
| KeyDown (key : string)
| WindowResize (innerWidth innerHeight : R)
| FontLoaded
| AnimationFrame.

Definition dispatch (e : Event) : M unit :=
  match e with
  | KeyDown key => onKeyDown key
  | WindowResize innerWidth innerHeight => onWindowResize innerWidth innerHeight
  | FontLoaded => onFontLoaded
  | AnimationFrame => render
  end.

(** One event handled to completion. *)
Definition step (w : World) (e : Event) (w' : World) : Prop :=
  dispatch e w = Some (tt, w').

(** The worlds that the page can be in once [main] has found a canvas and
    has run to its end, where it registers the listeners, in a window of the
    given size. *)
Inductive reachable (innerWidth innerHeight : R) : World -> Prop :=
| reachable_main canvas w :
    main (Some canvas) innerWidth innerHeight boot = Some (tt, w) ->
    reachable innerWidth innerHeight w
| reachable_step w e w' :
    reachable innerWidth innerHeight w ->
    step w e w' ->
    reachable innerWidth innerHeight w'.

(** Handling a list of events, first to last. *)
Fixpoint run (es : list Event) : M unit :=
  match es with
  | [] => mret tt
  | e :: es' => dispatch e;; run es'
  end.

(** The key events only. *)
Definition press (keys : list string) : M unit := run (KeyDown <$> keys).

(** ** Notions used in the statements *)

(** The two points that lines 111 and 112 compute from an angle; the
    distance is the constant 3 of line 108. *)
Definition childPosition1 (angle : R) : V3.t :=
  let distance := 3 in
  let halfAngle := angle / 2 in
  V3.mk (sin halfAngle * distance) (- distance) (- cos halfAngle * distance).

Definition childPosition2 (angle : R) : V3.t :=
  let distance := 3 in
  let halfAngle := angle / 2 in
  V3.mk (- sin halfAngle * distance) (- distance) (- cos halfAngle * distance).

(** The edges are the only cylinders of the program. *)
Definition isCylinder (o : Object3D) : bool :=
  match geometry o with
  | CylinderGeometry _ _ _ _ _ => true
  | _ => false
  end.

Definition isEdge (hp : gmap handle Object3D) (h : handle) : bool :=
  match hp !! h with
  | Some o => isCylinder o
  | None => false
  end.

(** The edge objects among the scene's children, in drawing order. *)
Definition edgesInScene (w : World) : list handle :=
  match scene w with
  | Some children => List.filter (isEdge (heap w)) children
  | None => []
  end.

(** What [scene.remove] leaves of the children. *)
Definition without (object : option handle) (l : list handle) : list handle :=
  match object with
  | Some h => remove_first h l
  | None => l
  end.

(** A call of [createEdge] from the root at the origin to a child. *)
Definition rootToChild (call : V3.t * V3.t) : Prop :=
  fst call = V3.zero /\
  exists angle, 0 <= angle <= PI /\
    (snd call = childPosition1 angle \/ snd call = childPosition2 angle).

(** Where the object held by a variable is. *)
Definition positionOf (var : World -> option handle) (w : World) : option V3.t :=
  h ← var w; o ← heap w !! h; Some (position o).

(** What the object held by a variable draws. *)
Definition geometryOf (var : World -> option handle) (w : World) : option Geometry :=
  h ← var w; o ← heap w !! h; Some (geometry o).

(** The aspect ratio the camera has at the moment. *)
Definition aspectOf (w : World) : R :=
  match camera w with
  | Some cam => cam_aspect cam
  | None => 0
  end.

(** The camera object agrees with the variables [fov], [near] and [far], and
    its projection matrix is up to date. *)
Definition cameraInSync (w : World) : Prop :=
  camera w = Some (PerspectiveCamera (fov w) (aspectOf w) (near w) (far w)).

(** The shape of every state the page can be in once [main] has run: the
    handles that [main] hands out, the objects behind them, and the ranges
    of the four parameters. *)
Record WF (w : World) : Prop := mkWF {
  wf_mainSphere : mainSphere w = Some 0%nat;
  wf_childSphere1 : childSphere1 w = Some 1%nat;
  wf_childSphere2 : childSphere2 w = Some 2%nat;
  wf_cameraHelper : cameraHelper w = Some 7%nat;
  wf_next : (8 <= next w)%nat;
  wf_root : heap w !! 0%nat = Some (sphereMesh mainSphereColor);
  wf_child1 : heap w !! 1%nat =
    Some (set_position (childPosition1 (angleBetweenChildren w))
                       (sphereMesh childSphereColor));
  wf_child2 : heap w !! 2%nat =
    Some (set_position (childPosition2 (angleBetweenChildren w))
                       (sphereMesh childSphereColor));
  wf_edges : exists e1 e2 children,
    edge1 w = Some e1 /\ edge2 w = Some e2 /\ e1 <> e2 /\
    (3 <= e1 < next w)%nat /\ (3 <= e2 < next w)%nat /\ e1 <> 7%nat /\ e2 <> 7%nat /\
    heap w !! e1 = Some (edgeMesh V3.zero (childPosition1 (angleBetweenChildren w))) /\
    heap w !! e2 = Some (edgeMesh V3.zero (childPosition2 (angleBetweenChildren w))) /\
    scene w = Some children /\
    Forall (fun h => (h < next w)%nat) children /\
    List.filter (isEdge (heap w)) children = [e1; e2];
  wf_camera : cameraInSync w;
  wf_helper : heap w !! 7%nat =
    Some (Mesh (CameraHelperGeometry
                  (mkFrustum (fov w) (aspectOf w) (near w) (far w)))
               0xffffff);
  wf_renderer : is_Some (renderer w);
  wf_angle : 0 <= angleBetweenChildren w <= PI;
  wf_fov : 10 <= fov w <= 120;
  wf_near : 0.1 <= near w <= 10;
  wf_far : 10 <= far w <= 100;
  wf_calls : Forall rootToChild (createEdgeCalls w)
}.

(** The state in which [main] ends, for a window of the given size: the
    three spheres are objects 0, 1 and 2, the first two edges 3 and 4, the
    grid 5, the axes 6 and the camera helper 7. *)
Definition mainWorld (innerWidth innerHeight : R) : World :=
  let sphere := sphereMesh childSphereColor in
  let p1 := childPosition1 (PI / 4) in
  let p2 := childPosition2 (PI / 4) in
  let root := sphereMesh mainSphereColor in
  let cam := PerspectiveCamera 75 (innerWidth / innerHeight) 0.1 50 in
  mkWorld
    (<[7%nat := Mesh (CameraHelperGeometry (projectionMatrix cam)) 0xffffff]>
       (<[6%nat := Mesh (AxisGroup 5) 0]>
          (<[5%nat := Mesh (GridHelper 20 20) 0xffffff]>
             (<[4%nat := edgeMesh (position root) p2]>
                (<[3%nat := edgeMesh (position root) p1]>
                   (<[2%nat := set_position p2 sphere]>
                      (<[1%nat := set_position p1 sphere]>
                         (<[2%nat := sphere]>
                            (<[1%nat := sphere]>
                               (<[0%nat := root]> ∅))))))))))
    8%nat
    (Some (innerWidth, innerHeight))
    (Some [0; 1; 2; 3; 4; 5; 6; 7]%nat)
    (Some cam)
    (Some 0%nat) (Some 1%nat) (Some 2%nat) (Some 3%nat) (Some 4%nat) (Some 7%nat)
    75 0.1 50 (PI / 4)
    [(position root, p2); (position root, p1)].

(** The state after [updateChildPositions] in a state of that shape: the
    children are at the positions for the current angle, the recorded edges
    have left the scene and two new ones have been appended. *)
Definition rebuilt (w : World) : World :=
  let sphere := sphereMesh childSphereColor in
  let p1 := childPosition1 (angleBetweenChildren w) in
  let p2 := childPosition2 (angleBetweenChildren w) in
  let n := next w in
  mkWorld
    (<[S n := edgeMesh V3.zero p2]>
       (<[n := edgeMesh V3.zero p1]>
          (<[2%nat := set_position p2 sphere]>
             (<[1%nat := set_position p1 sphere]> (heap w)))))
    (S (S n)) (renderer w)
    (Some (without (edge2 w) (without (edge1 w) (default [] (scene w))) ++ [n; S n]))
    (camera w) (mainSphere w) (childSphere1 w) (childSphere2 w)
    (Some n) (Some (S n)) (cameraHelper w)
    (fov w) (near w) (far w) (angleBetweenChildren w)
    ((V3.zero, p2) :: (V3.zero, p1) :: createEdgeCalls w).

(** The state after [updateCamera] in a state of that shape. *)
Definition reframed (w : World) : World :=
  let fr := mkFrustum (fov w) (aspectOf w) (near w) (far w) in
  set_heap (<[7%nat := Mesh (CameraHelperGeometry fr) 0xffffff]> (heap w))
    (set_camera (Some (PerspectiveCamera (fov w) (aspectOf w) (near w) (far w))) w).

(** The state after [onWindowResize] in a state of that shape. *)
Definition resized (innerWidth innerHeight : R) (w : World) : World :=
  let aspect := innerWidth / innerHeight in
  let fr := mkFrustum (fov w) aspect (near w) (far w) in
  set_heap (<[7%nat := Mesh (CameraHelperGeometry fr) 0xffffff]> (heap w))
    (set_renderer (Some (innerWidth, innerHeight))
       (set_camera (Some (PerspectiveCamera (fov w) aspect (near w) (far w))) w)).

(** The state after the font callback. *)
Definition labelled (w : World) : World :=
  let n := next w in
  set_scene (Some (default [] (scene w) ++ [n; S n; S (S n)]))
    (set_next (S (S (S n)))
       (set_heap
          (<[S (S n) := set_position (V3.mk 0 0 5.5)
                          (Mesh (TextGeometry "Z" 0.5 0.1) 0xffffff)]>
             (<[S n := set_position (V3.mk 0 5.5 0)
                         (Mesh (TextGeometry "Y" 0.5 0.1) 0xffffff)]>
                (<[n := set_position (V3.mk 5.5 0 0)
                          (Mesh (TextGeometry "X" 0.5 0.1) 0xffffff)]>
                   (heap w)))) w)).

(** ** More notions for the statements *)

Module V3More.

(** [a.dot(b)] *)
Definition dot (a b : V3.t) : R :=
  V3.x a * V3.x b + V3.y a * V3.y b + V3.z a * V3.z b.

(** The part of a vector in the horizontal plane (x and z). *)
Definition horizontal (v : V3.t) : V3.t := V3.mk (V3.x v) 0 (V3.z v).

End V3More.

(** The scene's children ([[]] while there is no scene). *)
Definition childrenOf (w : World) : list handle := default [] (scene w).

(** The eight keys that [onKeyDown] has a case for. *)
Definition boundKeys : list string :=
  ["ArrowLeft"; "ArrowRight"; "f"; "F"; "n"; "N"; "r"; "R"].

(** A whole number of steps: [v = k * step] for an integer [k] between
    [lo] and [hi]. *)
Definition onGrid (step : R) (lo hi : Z) (v : R) : Prop :=
  exists k : Z, (lo <= k <= hi)%Z /\ v = IZR k * step.

(** The scene holds each child once, every child is an object of the heap,
    and the three spheres and the camera helper are among the children. *)
Definition sceneSound (w : World) : Prop :=
  List.NoDup (childrenOf w) /\
  Forall (fun h => is_Some (heap w !! h)) (childrenOf w) /\
  Forall (fun var => exists h, var w = Some h /\ In h (childrenOf w))
         [mainSphere; childSphere1; childSphere2; cameraHelper; edge1; edge2].

(** The parameter that a key moves, if any. *)
Inductive Knob := Angle | Fov | Near | Far.

Definition parameterOf (key : string) : option Knob :=
  if decide (key = "ArrowLeft") then Some Angle
  else if decide (key = "ArrowRight") then Some Angle
  else if decide (key = "f") then Some Fov
  else if decide (key = "F") then Some Fov
  else if decide (key = "n") then Some Near
  else if decide (key = "N") then Some Near
  else if decide (key = "r") then Some Far
  else if decide (key = "R") then Some Far
  else None.

(** The state after an arrow key that maps the angle by [f], and after
    camera keys that map the three camera parameters by [ff], [fn] and
    [ffa], in a state of the page. *)
Definition angleKey (f : R -> R) (w : World) : World :=
  rebuilt (set_angleBetweenChildren (f (angleBetweenChildren w)) w).

Definition cameraKey (ff fn ffa : R -> R) (w : World) : World :=
  reframed (set_fov (ff (fov w)) (set_near (fn (near w)) (set_far (ffa (far w)) w))).

(** ** The parameters in binary64

    The four numbers of lines 18-23 and what [onKeyDown] (lines 191-227)
    does to them, on the doubles that JavaScript computes with: [+], [-]
    and [/] are the IEEE 754 operations, rounding to nearest, ties to
    even. *)

Module Float64.

Import PrimFloat.
Local Open Scope float_scope.

(** [Math.PI]: the double nearest to pi, 3.141592653589793. *)
Definition Math_PI : float := 0x1.921fb54442d18p+1.

(** The double that the literal [0.1] denotes. *)
Definition tenth : float := 0x1.999999999999ap-4.

(** [Math.max] and [Math.min] of two numbers: NaN if either is NaN, and -0
    is smaller than +0. *)
Definition Math_max (x y : float) : float :=
  if (is_nan x || is_nan y)%bool then nan
  else if x <? y then y
  else if y <? x then x
  else if get_sign x then y else x.

Definition Math_min (x y : float) : float :=
  if (is_nan x || is_nan y)%bool then nan
  else if x <? y then x
  else if y <? x then y
  else if get_sign x then x else y.

Record Params := mk {
  fov : float;
  near : float;
  far : float;
  angleBetweenChildren : float
}.

(** Lines 18-23. *)
Definition initial : Params := mk 75 tenth 50 (Math_PI / 4).

(** Lines 191-227, without the rebuilding of the scene and of the camera. *)
Definition onKeyDown (key : string) (p : Params) : Params :=
  let step := Math_PI / 36 in
  if decide (key = "ArrowLeft") then
    mk (fov p) (near p) (far p) (Math_max 0 (angleBetweenChildren p - step))
  else if decide (key = "ArrowRight") then
    mk (fov p) (near p) (far p) (Math_min Math_PI (angleBetweenChildren p + step))
  else if decide (key = "f") then
    mk (Math_max 10 (fov p - 5)) (near p) (far p) (angleBetweenChildren p)
  else if decide (key = "F") then
    mk (Math_min 120 (fov p + 5)) (near p) (far p) (angleBetweenChildren p)
  else if decide (key = "n") then
    mk (fov p) (Math_max tenth (near p - tenth)) (far p) (angleBetweenChildren p)
  else if decide (key = "N") then
    mk (fov p) (Math_min 10 (near p + tenth)) (far p) (angleBetweenChildren p)
  else if decide (key = "r") then
    mk (fov p) (near p) (Math_max 10 (far p - 5)) (angleBetweenChildren p)
  else if decide (key = "R") then
    mk (fov p) (near p) (Math_min 100 (far p + 5)) (angleBetweenChildren p)
  else p.

(** The key events, first to last. *)
Definition press (keys : list string) (p : Params) : Params :=
  foldl (fun p key => onKeyDown key p) p keys.

End Float64.


(** * Running the statements

    A sequence of statements is run one statement at a time; after each
    one the state is brought back to an explicit record. *)

Lemma bind_Some {A B} (m : M A) (f : A -> M B) (w w1 : World) (a : A)
      (r : option (B * World)) :
  m w = Some (a, w1) -> f a w1 = r -> (m ≫= f) w = r.
Proof. intros Hm Hf. unfold mbind, M_bind. now rewrite Hm. Qed.

Lemma bind_None {A B} (m : M A) (f : A -> M B) (w : World) :
  m w = None -> (m ≫= f) w = None.
Proof. intros Hm. unfold mbind, M_bind. now rewrite Hm. Qed.

Lemma defined_Some {A} (var : World -> option A) (w : World) (a : A) :
  var w = Some a -> defined var w = Some (a, w).
Proof. intros H. unfold defined. now rewrite H. Qed.

Lemma deref_Some (h : handle) (w : World) (o : Object3D) :
  heap w !! h = Some o -> deref h w = Some (o, w).
Proof. intros H. unfold deref. now rewrite H. Qed.

Lemma update_Some (h : handle) (f : Object3D -> Object3D) (w : World)
      (o : Object3D) :
  heap w !! h = Some o ->
  update h f w = Some (tt, set_heap (<[h := f o]> (heap w)) w).
Proof. intros H. unfold update. now rewrite H. Qed.

Lemma Scene_remove_Some (o : option handle) (w : World) (l : list handle) :
  scene w = Some l ->
  Scene_remove o w = Some (tt, set_scene (Some (without o l)) w).
Proof.
  intros H. unfold Scene_remove.
  eapply bind_Some; [exact (defined_Some _ _ _ H)|].
  destruct o; [reflexivity|]. cbn [without]. unfold mret, M_ret. rewrite <- H.
  now destruct w.
Qed.

Lemma Scene_add_Some (h : handle) (w : World) (l : list handle) :
  scene w = Some l ->
  Scene_add h w = Some (tt, set_scene (Some (remove_first h l ++ [h])) w).
Proof.
  intros H. unfold Scene_add.
  eapply bind_Some; [exact (defined_Some _ _ _ H)|reflexivity].
Qed.

Lemma createEdge_Some (s e : V3.t) (w : World) :
  createEdge s e w =
  Some (next w,
        set_next (S (next w))
          (set_heap (<[next w := edgeMesh s e]> (heap w))
             (set_createEdgeCalls ((s, e) :: createEdgeCalls w) w))).
Proof. reflexivity. Qed.

Lemma CameraHelper_update_Some (h : handle) (w : World) (cam : Camera)
      (o : Object3D) :
  camera w = Some cam -> heap w !! h = Some o ->
  CameraHelper_update h w =
  Some (tt, set_heap (<[h := set_geometry (CameraHelperGeometry (projectionMatrix cam)) o]>
                        (heap w)) w).
Proof.
  intros Hc Ho. unfold CameraHelper_update.
  eapply bind_Some; [exact (defined_Some _ _ _ Hc)|].
  now apply update_Some.
Qed.

Lemma CameraHelper_Some (w : World) (cam : Camera) :
  camera w = Some cam ->
  CameraHelper w =
  Some (next w,
        set_next (S (next w))
          (set_heap (<[next w := Mesh (CameraHelperGeometry (projectionMatrix cam))
                                      0xffffff]> (heap w)) w)).
Proof.
  intros Hc. unfold CameraHelper.
  eapply bind_Some; [exact (defined_Some _ _ _ Hc)|reflexivity].
Qed.

Ltac setters :=
  cbv [set_heap set_next set_renderer set_scene set_camera set_mainSphere
       set_childSphere1 set_childSphere2 set_edge1 set_edge2 set_cameraHelper
       set_createEdgeCalls set_fov set_near set_far set_angleBetweenChildren
       heap next renderer scene camera mainSphere childSphere1 childSphere2
       edge1 edge2 cameraHelper fov near far angleBetweenChildren
       createEdgeCalls].

Ltac lookups :=
  repeat first [ rewrite lookup_insert_eq | rewrite lookup_insert_ne by lia ].

Ltac found := setters; lookups; first [eassumption | reflexivity].

(** The effect of the statement at the head of the goal. *)
Ltac effect :=
  lazymatch goal with
  | |- update _ _ _ = _ => apply update_Some; found
  | |- deref _ _ = _ => apply deref_Some; found
  | |- Scene_remove _ _ = _ => apply Scene_remove_Some; reflexivity
  | |- Scene_add _ _ = _ => apply Scene_add_Some; reflexivity
  | |- createEdge _ _ _ = _ => apply createEdge_Some
  | |- CameraHelper_update _ _ = _ =>
      eapply CameraHelper_update_Some; [reflexivity | found]
  | |- CameraHelper _ = _ => apply CameraHelper_Some; reflexivity
  | |- _ => reflexivity
  end.

Ltac stmt := eapply bind_Some; [effect | cbv beta; setters].
Ltac last_stmt := etransitivity; [effect | setters].

(** ** Lists of children *)

Lemma remove_first_fresh (n : handle) (l : list handle) :
  Forall (fun h => (h < n)%nat) l -> remove_first n l = l.
Proof.
  induction 1 as [|a l Ha _ IH]; cbn [remove_first]; [reflexivity|].
  cbn beta in Ha. case_decide; [lia|]. now rewrite IH.
Qed.

Lemma remove_first_Forall (P : handle -> Prop) (h : handle) (l : list handle) :
  Forall P l -> Forall P (remove_first h l).
Proof.
  induction 1 as [|a l Ha Hl IH]; cbn [remove_first]; [constructor|].
  case_decide; [assumption|]. now constructor.
Qed.

Lemma without_Forall (P : handle -> Prop) (o : option handle) (l : list handle) :
  Forall P l -> Forall P (without o l).
Proof. destruct o; cbn [without]; [apply remove_first_Forall|trivial]. Qed.

Lemma Forall_lt_weaken (n n' : handle) (l : list handle) :
  (n <= n')%nat -> Forall (fun h => (h < n)%nat) l ->
  Forall (fun h => (h < n')%nat) l.
Proof.
  intros Hn Hl. eapply Forall_impl; [exact Hl|]. cbn beta. intros h Hh. lia.
Qed.

Lemma remove_first_fresh_app (n : handle) (l l' : list handle) :
  Forall (fun h => (h < n)%nat) l -> remove_first n (l ++ l') = l ++ remove_first n l'.
Proof.
  induction 1 as [|a l Ha _ IH]; [reflexivity|].
  cbn [app remove_first]. cbn beta in Ha. case_decide; [lia|]. now rewrite IH.
Qed.

(** Removing an element that passes the filter commutes with filtering. *)
Lemma filter_remove_first (P : handle -> bool) (h : handle) (l : list handle) :
  P h = true ->
  List.filter P (remove_first h l) = remove_first h (List.filter P l).
Proof.
  intros Hh. induction l as [|a l IH]; [reflexivity|].
  cbn [remove_first List.filter]. case_decide as Ha.
  - subst a. rewrite Hh. cbn [remove_first]. case_decide; [reflexivity|congruence].
  - cbn [List.filter]. destruct (P a); [|exact IH].
    cbn [remove_first]. case_decide; [congruence|]. now rewrite IH.
Qed.

Lemma filter_agree (P Q : handle -> bool) (l : list handle) :
  Forall (fun h => P h = Q h) l -> List.filter P l = List.filter Q l.
Proof.
  induction 1 as [|a l Ha _ IH]; [reflexivity|].
  cbn [List.filter]. cbn beta in Ha. now rewrite Ha, IH.
Qed.

(** ** The functions, one call at a time *)

(** [updateChildPositions]: both children are moved, the old edges leave
    the scene, and two new edges from the root to the children are built
    and appended. *)
Lemma updateChildPositions_spec (w : World) (m c1 c2 : handle)
      (om o1 o2 : Object3D) (l : list handle) :
  mainSphere w = Some m -> childSphere1 w = Some c1 -> childSphere2 w = Some c2 ->
  m <> c1 -> m <> c2 -> c1 <> c2 ->
  (m < next w)%nat -> (c1 < next w)%nat -> (c2 < next w)%nat ->
  heap w !! m = Some om -> heap w !! c1 = Some o1 -> heap w !! c2 = Some o2 ->
  scene w = Some l -> Forall (fun h => (h < next w)%nat) l ->
  updateChildPositions w =
  Some (tt,
    let p1 := childPosition1 (angleBetweenChildren w) in
    let p2 := childPosition2 (angleBetweenChildren w) in
    let n := next w in
    mkWorld
      (<[S n := edgeMesh (position om) p2]>
         (<[n := edgeMesh (position om) p1]>
            (<[c2 := set_position p2 o2]> (<[c1 := set_position p1 o1]> (heap w)))))
      (S (S n)) (renderer w)
      (Some (without (edge2 w) (without (edge1 w) l) ++ [n; S n]))
      (camera w) (mainSphere w) (childSphere1 w) (childSphere2 w)
      (Some n) (Some (S n)) (cameraHelper w)
      (fov w) (near w) (far w) (angleBetweenChildren w)
      ((position om, p2) :: (position om, p1) :: createEdgeCalls w)).
Proof.
  intros Hm Hc1 Hc2 Hmc1 Hmc2 Hc12 Hmn Hc1n Hc2n Hom Ho1 Ho2 Hl Hfresh.
  destruct w as [hp nx rd sc cm ms cs1 cs2 e1 e2 ch fv nr fr an calls].
  cbn in Hm, Hc1, Hc2, Hmn, Hc1n, Hc2n, Hom, Ho1, Ho2, Hl, Hfresh. subst.
  assert (Hl2 : Forall (fun h => (h < nx)%nat) (without e2 (without e1 l)))
    by now do 2 apply without_Forall.
  unfold updateChildPositions.
  do 24 stmt. last_stmt.
  unfold childPosition1, childPosition2.
  rewrite (remove_first_fresh nx) by assumption.
  rewrite (remove_first_fresh_app (S nx)) by (eapply Forall_lt_weaken; [|eassumption]; lia).
  cbn [remove_first]. case_decide; [lia|].
  rewrite <- app_assoc. reflexivity.
Qed.

(** [updateCamera]: the camera takes the three variables, its matrix is
    recomputed and the helper is redrawn from it. *)
Lemma updateCamera_spec (w : World) (cam : Camera) (h : handle) (o : Object3D) :
  camera w = Some cam -> cameraHelper w = Some h -> heap w !! h = Some o ->
  updateCamera w =
  Some (tt,
    let fr := mkFrustum (fov w) (cam_aspect cam) (near w) (far w) in
    set_heap (<[h := set_geometry (CameraHelperGeometry fr) o]> (heap w))
      (set_camera (Some (mkCamera (fov w) (cam_aspect cam) (near w) (far w) fr)) w)).
Proof.
  intros Hc Hh Ho.
  destruct w as [hp nx rd sc cm ms cs1 cs2 e1 e2 ch fv nr fr an calls].
  cbn in Hc, Hh, Ho. subst.
  unfold updateCamera. do 8 stmt. last_stmt. reflexivity.
Qed.

(** [onWindowResize]: the camera's aspect ratio, its matrix, the renderer's
    size and the helper are renewed. *)
Lemma onWindowResize_spec (innerWidth innerHeight : R) (w : World)
      (cam : Camera) (size : R * R) (h : handle) (o : Object3D) :
  camera w = Some cam -> renderer w = Some size ->
  cameraHelper w = Some h -> heap w !! h = Some o ->
  onWindowResize innerWidth innerHeight w =
  Some (tt,
    let aspect := innerWidth / innerHeight in
    let fr := mkFrustum (cam_fov cam) aspect (cam_near cam) (cam_far cam) in
    set_heap (<[h := set_geometry (CameraHelperGeometry fr) o]> (heap w))
      (set_renderer (Some (innerWidth, innerHeight))
         (set_camera
            (Some (mkCamera (cam_fov cam) aspect (cam_near cam) (cam_far cam) fr))
            w))).
Proof.
  intros Hc Hr Hh Ho.
  destruct w as [hp nx rd sc cm ms cs1 cs2 e1 e2 ch fv nr fr an calls].
  cbn in Hc, Hr, Hh, Ho. subst.
  unfold onWindowResize. do 7 stmt. last_stmt. reflexivity.
Qed.

(** The labels: three new text meshes at the end of the scene. *)
Lemma onFontLoaded_spec (w : World) (l : list handle) :
  scene w = Some l -> Forall (fun h => (h < next w)%nat) l ->
  onFontLoaded w =
  Some (tt,
    let n := next w in
    set_scene (Some (l ++ [n; S n; S (S n)]))
      (set_next (S (S (S n)))
         (set_heap
            (<[S (S n) := set_position (V3.mk 0 0 5.5)
                            (Mesh (TextGeometry "Z" 0.5 0.1) 0xffffff)]>
               (<[S n := set_position (V3.mk 0 5.5 0)
                           (Mesh (TextGeometry "Y" 0.5 0.1) 0xffffff)]>
                  (<[n := set_position (V3.mk 5.5 0 0)
                            (Mesh (TextGeometry "X" 0.5 0.1) 0xffffff)]>
                     (heap w)))) w))).
Proof.
  intros Hl Hfresh.
  destruct w as [hp nx rd sc cm ms cs1 cs2 e1 e2 ch fv nr fr an calls].
  cbn in Hl, Hfresh. subst.
  unfold onFontLoaded. cbv zeta. do 5 stmt. last_stmt.
  rewrite (remove_first_fresh nx) by assumption.
  rewrite (remove_first_fresh_app (S nx)) by (eapply Forall_lt_weaken; [|eassumption]; lia).
  cbn [remove_first]. case_decide; [lia|].
  rewrite <- app_assoc.
  rewrite (remove_first_fresh_app (S (S nx))) by (eapply Forall_lt_weaken; [|eassumption]; lia).
  cbn [remove_first app]. repeat (case_decide; [lia|]).
  rewrite <- app_assoc. reflexivity.
Qed.


(** ** [main] *)

Ltac children :=
  repeat match goal with
         | |- context [Some (remove_first ?h ?l ++ [?h'])] =>
             let l' := eval lazy in (remove_first h l ++ [h']) in
             change (remove_first h l ++ [h']) with l'
         end.

Lemma main_spec (innerWidth innerHeight : R) :
  main (Some {| webgl := true |}) innerWidth innerHeight boot =
  Some (tt, mainWorld innerWidth innerHeight).
Proof.
  unfold main, boot. cbv zeta.
  eapply bind_Some; [reflexivity|]. cbv beta.
  do 18 (stmt; children).
  eapply bind_Some.
  { eapply (updateChildPositions_spec _ 0%nat 1%nat 2%nat); setters; lookups;
      try reflexivity; try lia.
    repeat constructor. }
  cbv beta zeta; setters. cbn [without].
  do 7 (stmt; children). last_stmt. children.
  unfold mainWorld. reflexivity.
Qed.

(** [main] ends in that state or not at all. *)
Lemma main_inv (canvas : Canvas) (innerWidth innerHeight : R) (w : World) :
  main (Some canvas) innerWidth innerHeight boot = Some (tt, w) ->
  w = mainWorld innerWidth innerHeight.
Proof.
  destruct canvas as [[|]]; intros H.
  - rewrite main_spec in H. now injection H as <-.
  - discriminate H.
Qed.


(** ** Which children are edges *)

Lemma isEdge_insert (hp : gmap handle Object3D) (k h : handle) (o : Object3D) :
  isEdge (<[k := o]> hp) h = if decide (k = h) then isCylinder o else isEdge hp h.
Proof.
  unfold isEdge. case_decide as Hk.
  - subst. now rewrite lookup_insert_eq.
  - now rewrite lookup_insert_ne.
Qed.

Lemma filter_isEdge_fresh (hp : gmap handle Object3D) (k : handle)
      (o : Object3D) (l : list handle) :
  Forall (fun h => (h < k)%nat) l ->
  List.filter (isEdge (<[k := o]> hp)) l = List.filter (isEdge hp) l.
Proof.
  intros Hl. apply filter_agree. eapply Forall_impl; [exact Hl|].
  cbn beta. intros h Hh. rewrite isEdge_insert. case_decide; [lia|reflexivity].
Qed.

Lemma filter_isEdge_same (hp : gmap handle Object3D) (k : handle)
      (o o' : Object3D) (l : list handle) :
  hp !! k = Some o' -> isCylinder o = isCylinder o' ->
  List.filter (isEdge (<[k := o]> hp)) l = List.filter (isEdge hp) l.
Proof.
  intros Hk Ho. apply filter_agree. apply Forall_forall. intros h _.
  rewrite isEdge_insert. case_decide as E; [|reflexivity].
  subst h. unfold isEdge. now rewrite Hk.
Qed.

Lemma isEdge_edgeMesh (hp : gmap handle Object3D) (h : handle) (s e : V3.t) :
  hp !! h = Some (edgeMesh s e) -> isEdge hp h = true.
Proof. intros H. unfold isEdge. now rewrite H. Qed.

(** Once the two recorded edges are removed, no edge is left. *)
Lemma filter_without_edges (P : handle -> bool) (e1 e2 : handle) (l : list handle) :
  P e1 = true -> P e2 = true -> List.filter P l = [e1; e2] ->
  List.filter P (remove_first e2 (remove_first e1 l)) = [].
Proof.
  intros H1 H2 Hl. rewrite !filter_remove_first by assumption. rewrite Hl.
  cbn [remove_first]. case_decide; [|congruence].
  cbn [remove_first]. case_decide; [reflexivity|congruence].
Qed.

(** ** The shape of the states *)

Lemma rootToChild_1 (a : R) :
  0 <= a <= PI -> rootToChild (V3.zero, childPosition1 a).
Proof. intros Ha. split; [reflexivity|]. exists a. split; [exact Ha|now left]. Qed.

Lemma rootToChild_2 (a : R) :
  0 <= a <= PI -> rootToChild (V3.zero, childPosition2 a).
Proof. intros Ha. split; [reflexivity|]. exists a. split; [exact Ha|now right]. Qed.

Lemma PI4_range : 0 <= PI / 4 <= PI.
Proof. pose proof PI_RGT_0. lra. Qed.

Lemma WF_mainWorld (innerWidth innerHeight : R) :
  WF (mainWorld innerWidth innerHeight).
Proof.
  unfold mainWorld. cbv zeta.
  constructor; setters; lookups; try reflexivity; try lia; try lra.
  - exists 3%nat, 4%nat, [0; 1; 2; 3; 4; 5; 6; 7]%nat.
    repeat split; lookups; try reflexivity; try lia.
    repeat constructor.
  - now exists (innerWidth, innerHeight).
  - exact PI4_range.
  - repeat constructor; [apply rootToChild_2 | apply rootToChild_1]; exact PI4_range.
Qed.


(** ** [updateChildPositions] on the states of the page *)

Lemma updateChildPositions_rebuilt (w : World) (q1 q2 : V3.t) (l : list handle) :
  mainSphere w = Some 0%nat -> childSphere1 w = Some 1%nat ->
  childSphere2 w = Some 2%nat -> (3 <= next w)%nat ->
  heap w !! 0%nat = Some (sphereMesh mainSphereColor) ->
  heap w !! 1%nat = Some (set_position q1 (sphereMesh childSphereColor)) ->
  heap w !! 2%nat = Some (set_position q2 (sphereMesh childSphereColor)) ->
  scene w = Some l -> Forall (fun h => (h < next w)%nat) l ->
  updateChildPositions w = Some (tt, rebuilt w).
Proof.
  intros Hm Hc1 Hc2 Hn H0 H1 H2 Hl Hfresh.
  rewrite (updateChildPositions_spec w 0%nat 1%nat 2%nat _ _ _ l
             Hm Hc1 Hc2 ltac:(lia) ltac:(lia) ltac:(lia) ltac:(lia) ltac:(lia)
             ltac:(lia) H0 H1 H2 Hl Hfresh).
  unfold rebuilt. rewrite Hl. reflexivity.
Qed.

Lemma WF_rebuilt (w : World) (a : R) :
  WF w -> 0 <= a <= PI -> WF (rebuilt (set_angleBetweenChildren a w)).
Proof.
  intros [Hm Hc1 Hc2 Hch Hn H0 H1 H2 He Hcam Hh Hr Ha Hf Hne Hfa Hcalls] Hrange.
  destruct He as (e1 & e2 & l & He1 & He2 & He12 & He1n & He2n & He17 & He27
                  & Hh1 & Hh2 & Hl & Hfresh & Hfilter).
  destruct w as [hp nx rd sc cm ms cs1 cs2 oe1 oe2 ch fv nr fr an calls].
  cbn in * |-. subst.
  unfold rebuilt. cbv zeta. setters. cbn [default without].
  assert (Hl2 : Forall (fun h => (h < nx)%nat) (remove_first e2 (remove_first e1 l)))
    by now do 2 apply remove_first_Forall.
  constructor; setters; lookups; try reflexivity; try assumption; try lia.
  - exists nx, (S nx), (remove_first e2 (remove_first e1 l) ++ [nx; S nx]).
    repeat split; lookups; try reflexivity; try lia.
    + apply Forall_app; split;
        [eapply Forall_lt_weaken; [|eassumption]; lia | repeat constructor; lia].
    + rewrite List.filter_app. cbn [List.filter]. rewrite !isEdge_insert.
      repeat (case_decide; try lia). cbn [isCylinder geometry edgeMesh].
      rewrite filter_isEdge_fresh
        by (eapply Forall_lt_weaken; [|eassumption]; lia).
      rewrite filter_isEdge_fresh by assumption.
      erewrite filter_isEdge_same; [|lookups; exact H2|reflexivity].
      erewrite filter_isEdge_same; [|exact H1|reflexivity].
      rewrite (filter_without_edges _ e1 e2 l) by
        (eauto using isEdge_edgeMesh).
      reflexivity.
  - repeat constructor;
      [now apply rootToChild_2|now apply rootToChild_1|assumption].
Qed.


(** ** [updateCamera], [onWindowResize] and the font callback on the states
    of the page *)

(** Redrawing object 7, which is no cylinder before or after, and adding
    objects beyond [next] leave the edges of the scene as they are. *)
Ltac same_edges :=
  repeat first
    [ rewrite filter_isEdge_fresh
        by (first [assumption | eapply Forall_lt_weaken; [|eassumption]; lia])
    | erewrite filter_isEdge_same; [|lookups; eassumption|reflexivity] ].

Lemma updateCamera_reframed (w : World) (cam : Camera) (fr0 : Frustum) :
  camera w = Some cam -> cameraHelper w = Some 7%nat ->
  heap w !! 7%nat = Some (Mesh (CameraHelperGeometry fr0) 0xffffff) ->
  updateCamera w = Some (tt, reframed w).
Proof.
  intros Hc Hh Ho. rewrite (updateCamera_spec w cam 7%nat _ Hc Hh Ho).
  unfold reframed, aspectOf. rewrite Hc. reflexivity.
Qed.

Lemma WF_reframed (w : World) (f n fa : R) :
  WF w -> 10 <= f <= 120 -> 0.1 <= n <= 10 -> 10 <= fa <= 100 ->
  WF (reframed (set_fov f (set_near n (set_far fa w)))).
Proof.
  intros [Hm Hc1 Hc2 Hch Hn H0 H1 H2 He Hcam Hh Hr Ha Hf Hne Hfa Hcalls] Rf Rn Rfa.
  destruct He as (e1 & e2 & l & He1 & He2 & He12 & He1n & He2n & He17 & He27
                  & Hh1 & Hh2 & Hl & Hfresh & Hfilter).
  destruct w as [hp nx rd sc cm ms cs1 cs2 oe1 oe2 ch fv nr fr an calls].
  unfold cameraInSync, aspectOf in *. cbn in * |-. subst.
  unfold reframed, cameraInSync, aspectOf. cbv zeta. setters.
  constructor; setters; lookups; try reflexivity; try assumption; try lia.
  exists e1, e2, l.
  repeat split; lookups; try reflexivity; try assumption; try lia.
  same_edges. assumption.
Qed.

Lemma onWindowResize_resized (innerWidth innerHeight : R) (w : World) :
  WF w ->
  onWindowResize innerWidth innerHeight w = Some (tt, resized innerWidth innerHeight w).
Proof.
  intros [Hm Hc1 Hc2 Hch Hn H0 H1 H2 He Hcam Hh [size Hr] Ha Hf Hne Hfa Hcalls].
  rewrite (onWindowResize_spec _ _ w _ size 7%nat _ Hcam Hr Hch Hh).
  reflexivity.
Qed.

Lemma WF_resized (innerWidth innerHeight : R) (w : World) :
  WF w -> WF (resized innerWidth innerHeight w).
Proof.
  intros [Hm Hc1 Hc2 Hch Hn H0 H1 H2 He Hcam Hh Hr Ha Hf Hne Hfa Hcalls].
  destruct He as (e1 & e2 & l & He1 & He2 & He12 & He1n & He2n & He17 & He27
                  & Hh1 & Hh2 & Hl & Hfresh & Hfilter).
  destruct w as [hp nx rd sc cm ms cs1 cs2 oe1 oe2 ch fv nr fr an calls].
  unfold cameraInSync, aspectOf in *. cbn in * |-. subst.
  unfold resized, cameraInSync, aspectOf. cbv zeta. setters.
  constructor; setters; lookups; try reflexivity; try assumption; try lia.
  - exists e1, e2, l.
    repeat split; lookups; try reflexivity; try assumption; try lia.
    same_edges. assumption.
  - now eexists.
Qed.

Lemma onFontLoaded_labelled (w : World) :
  WF w -> onFontLoaded w = Some (tt, labelled w).
Proof.
  intros [Hm Hc1 Hc2 Hch Hn H0 H1 H2 He Hcam Hh Hr Ha Hf Hne Hfa Hcalls].
  destruct He as (e1 & e2 & l & He1 & He2 & He12 & He1n & He2n & He17 & He27
                  & Hh1 & Hh2 & Hl & Hfresh & Hfilter).
  rewrite (onFontLoaded_spec w l Hl Hfresh). unfold labelled. now rewrite Hl.
Qed.

Lemma WF_labelled (w : World) : WF w -> WF (labelled w).
Proof.
  intros [Hm Hc1 Hc2 Hch Hn H0 H1 H2 He Hcam Hh Hr Ha Hf Hne Hfa Hcalls].
  destruct He as (e1 & e2 & l & He1 & He2 & He12 & He1n & He2n & He17 & He27
                  & Hh1 & Hh2 & Hl & Hfresh & Hfilter).
  destruct w as [hp nx rd sc cm ms cs1 cs2 oe1 oe2 ch fv nr fr an calls].
  unfold cameraInSync, aspectOf in *. cbn in * |-. subst.
  unfold labelled, cameraInSync, aspectOf. cbv zeta. setters. cbn [default].
  constructor; setters; lookups; try reflexivity; try assumption; try lia.
  exists e1, e2, (l ++ [nx; S nx; S (S nx)]).
  repeat split; lookups; try reflexivity; try assumption; try lia.
  - apply Forall_app; split;
      [eapply Forall_lt_weaken; [|eassumption]; lia | repeat constructor; lia].
  - rewrite List.filter_app. cbn [List.filter]. rewrite !isEdge_insert.
    repeat (case_decide; try lia). cbn [isCylinder geometry set_position Mesh].
    same_edges. rewrite Hfilter. reflexivity.
Qed.


(** ** The clamps of [onKeyDown] *)

Lemma Rmax_range (lo hi v : R) : lo <= hi -> v <= hi -> lo <= Rmax lo v <= hi.
Proof. intros. unfold Rmax. destruct (Rle_dec lo v); lra. Qed.

Lemma Rmin_range (lo hi v : R) : lo <= hi -> lo <= v -> lo <= Rmin hi v <= hi.
Proof. intros. unfold Rmin. destruct (Rle_dec hi v); lra. Qed.

Lemma step_positive : 0 < PI / 36.
Proof. pose proof PI_RGT_0. lra. Qed.

(** ** [onKeyDown], key by key *)

(** The branch of the [switch] for a given key. *)
Ltac pick_key :=
  unfold onKeyDown; cbv zeta;
  repeat (let E := fresh "E" in
          case_decide as E;
          [try discriminate E | try (exfalso; apply E; reflexivity)]).

Lemma set_fov_only (v : R) (w : World) :
  set_fov v w = set_fov v (set_near (near w) (set_far (far w) w)).
Proof. now destruct w. Qed.

Lemma set_near_only (v : R) (w : World) :
  set_near v w = set_fov (fov w) (set_near v (set_far (far w) w)).
Proof. now destruct w. Qed.

Lemma set_far_only (v : R) (w : World) :
  set_far v w = set_fov (fov w) (set_near (near w) (set_far v w)).
Proof. now destruct w. Qed.

Lemma angle_key (a : R -> R) (w : World) :
  WF w ->
  (x ← get angleBetweenChildren; assign set_angleBetweenChildren (a x);;
   updateChildPositions) w =
  Some (tt, rebuilt (set_angleBetweenChildren (a (angleBetweenChildren w)) w)).
Proof.
  intros [Hm Hc1 Hc2 Hch Hn H0 H1 H2 He Hcam Hh Hr Ha Hf Hne Hfa Hcalls].
  destruct He as (e1 & e2 & l & He1 & He2 & He12 & He1n & He2n & He17 & He27
                  & Hh1 & Hh2 & Hl & Hfresh & Hfilter).
  eapply bind_Some; [reflexivity|]. cbv beta.
  eapply bind_Some; [reflexivity|]. cbv beta.
  eapply updateChildPositions_rebuilt; try eassumption. cbn. lia.
Qed.

Lemma camera_key (w0 w : World) :
  WF w -> camera w0 = camera w -> cameraHelper w0 = cameraHelper w ->
  heap w0 = heap w ->
  updateCamera w0 = Some (tt, reframed w0).
Proof.
  intros [Hm Hc1 Hc2 Hch Hn H0 H1 H2 He Hcam Hh Hr Ha Hf Hne Hfa Hcalls] Ec Eh Ehp.
  eapply updateCamera_reframed.
  - rewrite Ec. exact Hcam.
  - now rewrite Eh.
  - rewrite Ehp. exact Hh.
Qed.

Lemma onKeyDown_ArrowLeft (w : World) :
  WF w ->
  onKeyDown "ArrowLeft" w =
  Some (tt, rebuilt (set_angleBetweenChildren
                       (Rmax 0 (angleBetweenChildren w - PI / 36)) w)).
Proof. intros Hw. pick_key. exact (angle_key (fun x => Rmax 0 (x - PI / 36)) w Hw). Qed.

Lemma onKeyDown_ArrowRight (w : World) :
  WF w ->
  onKeyDown "ArrowRight" w =
  Some (tt, rebuilt (set_angleBetweenChildren
                       (Rmin PI (angleBetweenChildren w + PI / 36)) w)).
Proof. intros Hw. pick_key. exact (angle_key (fun x => Rmin PI (x + PI / 36)) w Hw). Qed.

Ltac camera_branch Hw :=
  pick_key;
  eapply bind_Some; [reflexivity|]; cbv beta;
  eapply bind_Some; [reflexivity|]; cbv beta;
  apply (camera_key _ _ Hw); reflexivity.

Lemma onKeyDown_f (w : World) :
  WF w -> onKeyDown "f" w = Some (tt, reframed (set_fov (Rmax 10 (fov w - 5)) w)).
Proof. intros Hw. camera_branch Hw. Qed.

Lemma onKeyDown_F (w : World) :
  WF w -> onKeyDown "F" w = Some (tt, reframed (set_fov (Rmin 120 (fov w + 5)) w)).
Proof. intros Hw. camera_branch Hw. Qed.

Lemma onKeyDown_n (w : World) :
  WF w -> onKeyDown "n" w = Some (tt, reframed (set_near (Rmax 0.1 (near w - 0.1)) w)).
Proof. intros Hw. camera_branch Hw. Qed.

Lemma onKeyDown_N (w : World) :
  WF w -> onKeyDown "N" w = Some (tt, reframed (set_near (Rmin 10 (near w + 0.1)) w)).
Proof. intros Hw. camera_branch Hw. Qed.

Lemma onKeyDown_r (w : World) :
  WF w -> onKeyDown "r" w = Some (tt, reframed (set_far (Rmax 10 (far w - 5)) w)).
Proof. intros Hw. camera_branch Hw. Qed.

Lemma onKeyDown_R (w : World) :
  WF w -> onKeyDown "R" w = Some (tt, reframed (set_far (Rmin 100 (far w + 5)) w)).
Proof. intros Hw. camera_branch Hw. Qed.

(** Any other key changes nothing. *)
Lemma onKeyDown_other (key : string) (w : World) :
  key ∉ ["ArrowLeft"; "ArrowRight"; "f"; "F"; "n"; "N"; "r"; "R"] ->
  onKeyDown key w = Some (tt, w).
Proof.
  intros Hk. unfold onKeyDown. cbv zeta.
  repeat (let E := fresh "E" in
          case_decide as E; [exfalso; apply Hk; subst key; set_solver|]).
  reflexivity.
Qed.

(** ** Every event is handled, and the shape is kept *)

Lemma WF_onKeyDown (key : string) (w : World) :
  WF w -> exists w', onKeyDown key w = Some (tt, w') /\ WF w'.
Proof.
  intros Hw.
  destruct (decide (key = "ArrowLeft")) as [->|N1].
  { eexists; split; [apply onKeyDown_ArrowLeft, Hw|].
    apply WF_rebuilt; [exact Hw|]. pose proof (wf_angle w Hw). pose proof step_positive.
    apply Rmax_range; lra. }
  destruct (decide (key = "ArrowRight")) as [->|N2].
  { eexists; split; [apply onKeyDown_ArrowRight, Hw|].
    apply WF_rebuilt; [exact Hw|]. pose proof (wf_angle w Hw). pose proof step_positive.
    apply Rmin_range; lra. }
  pose proof (wf_fov w Hw). pose proof (wf_near w Hw). pose proof (wf_far w Hw).
  destruct (decide (key = "f")) as [->|N3].
  { eexists; split; [apply onKeyDown_f, Hw|]. rewrite set_fov_only.
    apply WF_reframed; try assumption. apply Rmax_range; lra. }
  destruct (decide (key = "F")) as [->|N4].
  { eexists; split; [apply onKeyDown_F, Hw|]. rewrite set_fov_only.
    apply WF_reframed; try assumption. apply Rmin_range; lra. }
  destruct (decide (key = "n")) as [->|N5].
  { eexists; split; [apply onKeyDown_n, Hw|]. rewrite set_near_only.
    apply WF_reframed; try assumption. apply Rmax_range; lra. }
  destruct (decide (key = "N")) as [->|N6].
  { eexists; split; [apply onKeyDown_N, Hw|]. rewrite set_near_only.
    apply WF_reframed; try assumption. apply Rmin_range; lra. }
  destruct (decide (key = "r")) as [->|N7].
  { eexists; split; [apply onKeyDown_r, Hw|]. rewrite set_far_only.
    apply WF_reframed; try assumption. apply Rmax_range; lra. }
  destruct (decide (key = "R")) as [->|N8].
  { eexists; split; [apply onKeyDown_R, Hw|]. rewrite set_far_only.
    apply WF_reframed; try assumption. apply Rmin_range; lra. }
  exists w. split; [|exact Hw]. apply onKeyDown_other.
  repeat (apply not_elem_of_cons; split; [assumption|]). apply not_elem_of_nil.
Qed.

Lemma WF_dispatch (e : Event) (w : World) :
  WF w -> exists w', dispatch e w = Some (tt, w') /\ WF w'.
Proof.
  intros Hw. destruct e as [key|iw ih| |]; cbn [dispatch].
  - now apply WF_onKeyDown.
  - eexists; split; [now apply onWindowResize_resized|now apply WF_resized].
  - eexists; split; [now apply onFontLoaded_labelled|now apply WF_labelled].
  - now exists w.
Qed.

Lemma WF_step (w w' : World) (e : Event) : WF w -> step w e w' -> WF w'.
Proof.
  intros Hw Hs. destruct (WF_dispatch e w Hw) as (w'' & Hd & Hw'').
  unfold step in Hs. congruence.
Qed.

Lemma reachable_WF (innerWidth innerHeight : R) (w : World) :
  reachable innerWidth innerHeight w -> WF w.
Proof.
  induction 1 as [c w Hmain|w e w' _ IH Hs].
  - apply main_inv in Hmain as ->. apply WF_mainWorld.
  - exact (WF_step w w' e IH Hs).
Qed.

Lemma reachable_mainWorld (innerWidth innerHeight : R) :
  reachable innerWidth innerHeight (mainWorld innerWidth innerHeight).
Proof. apply (reachable_main _ _ {| webgl := true |}), main_spec. Qed.


(** ** Sequences of events *)

Lemma run_cons (e : Event) (es : list Event) (w w1 : World) :
  dispatch e w = Some (tt, w1) -> run (e :: es) w = run es w1.
Proof. intros H. cbn [run]. now apply bind_Some with (a := tt) (w1 := w1). Qed.

Lemma press_cons (key : string) (keys : list string) (w w1 : World) :
  onKeyDown key w = Some (tt, w1) -> press (key :: keys) w = press keys w1.
Proof. intros H. unfold press. cbn [fmap list_fmap]. now apply run_cons. Qed.

Lemma run_WF (es : list Event) (w : World) :
  WF w -> exists w', run es w = Some (tt, w') /\ WF w'.
Proof.
  revert w. induction es as [|e es IH]; intros w Hw.
  - now exists w.
  - destruct (WF_dispatch e w Hw) as (w1 & Hd & Hw1).
    destruct (IH w1 Hw1) as (w' & Hr & Hw').
    exists w'. split; [|exact Hw']. now rewrite (run_cons e es w w1 Hd).
Qed.

Lemma run_reachable (innerWidth innerHeight : R) (es : list Event) (w w' : World) :
  reachable innerWidth innerHeight w -> run es w = Some (tt, w') ->
  reachable innerWidth innerHeight w'.
Proof.
  revert w. induction es as [|e es IH]; intros w Hw Hr.
  - cbn in Hr. unfold mret, M_ret in Hr. now injection Hr as <-.
  - destruct (WF_dispatch e w (reachable_WF _ _ w Hw)) as (w1 & Hd & _).
    rewrite (run_cons e es w w1 Hd) in Hr.
    apply (IH w1); [|exact Hr]. now apply reachable_step with w e.
Qed.

(** Pressing one key [n] times: a property indexed by the number of presses
    so far is carried along. *)
Lemma press_repeat (key : string) (I : nat -> World -> Prop) :
  (forall n w w', WF w -> I n w -> onKeyDown key w = Some (tt, w') -> I (S n) w') ->
  forall n w, WF w -> I 0%nat w ->
  exists w', press (repeat key n) w = Some (tt, w') /\ WF w' /\ I n w'.
Proof.
  intros Hstep n. 
  assert (G : forall k w, WF w -> I k w ->
            exists w', press (repeat key n) w = Some (tt, w') /\ WF w' /\ I (k + n)%nat w').
  { induction n as [|n IH]; intros k w Hw Hi.
    - exists w. rewrite Nat.add_0_r. split; [reflexivity|split; assumption].
    - destruct (WF_onKeyDown key w Hw) as (w1 & Hk & Hw1).
      destruct (IH (S k) w1 Hw1 (Hstep k w w1 Hw Hi Hk)) as (w' & Hp & Hw' & Hi').
      exists w'. cbn [repeat]. rewrite (press_cons key _ w w1 Hk).
      replace (k + S n)%nat with (S k + n)%nat by lia.
      split; [exact Hp|split; assumption]. }
  intros w Hw Hi. exact (G 0%nat w Hw Hi).
Qed.

(** ** Iterated clamps *)

Lemma Rmax_iter (lo d v : R) (n : nat) :
  0 <= d -> Rmax lo (Rmax lo (v - INR n * d) - d) = Rmax lo (v - INR (S n) * d).
Proof.
  intros Hd. rewrite S_INR. unfold Rmax.
  repeat destruct (Rle_dec _ _); lra.
Qed.

Lemma Rmin_iter (hi d v : R) (n : nat) :
  0 <= d -> Rmin hi (Rmin hi (v + INR n * d) + d) = Rmin hi (v + INR (S n) * d).
Proof.
  intros Hd. rewrite S_INR. unfold Rmin.
  repeat destruct (Rle_dec _ _); lra.
Qed.

(** ** What each key does to the four parameters *)

(** The state a key press leads to, for the state machine of the four
    parameters: one parameter moves by its step and is clamped, the other
    three stay. *)
Lemma onKeyDown_params (key : string) (w w' : World) :
  WF w -> onKeyDown key w = Some (tt, w') ->
  angleBetweenChildren w' =
    (if decide (key = "ArrowLeft") then Rmax 0 (angleBetweenChildren w - PI / 36)
     else if decide (key = "ArrowRight") then Rmin PI (angleBetweenChildren w + PI / 36)
     else angleBetweenChildren w) /\
  fov w' =
    (if decide (key = "f") then Rmax 10 (fov w - 5)
     else if decide (key = "F") then Rmin 120 (fov w + 5)
     else fov w) /\
  near w' =
    (if decide (key = "n") then Rmax 0.1 (near w - 0.1)
     else if decide (key = "N") then Rmin 10 (near w + 0.1)
     else near w) /\
  far w' =
    (if decide (key = "r") then Rmax 10 (far w - 5)
     else if decide (key = "R") then Rmin 100 (far w + 5)
     else far w).
Proof.
  intros Hw Hk.
  destruct (decide (key = "ArrowLeft")) as [->|N1].
  { rewrite (onKeyDown_ArrowLeft w Hw) in Hk. injection Hk as <-. now destruct w. }
  destruct (decide (key = "ArrowRight")) as [->|N2].
  { rewrite (onKeyDown_ArrowRight w Hw) in Hk. injection Hk as <-. now destruct w. }
  destruct (decide (key = "f")) as [->|N3].
  { rewrite (onKeyDown_f w Hw) in Hk. injection Hk as <-. now destruct w. }
  destruct (decide (key = "F")) as [->|N4].
  { rewrite (onKeyDown_F w Hw) in Hk. injection Hk as <-. now destruct w. }
  destruct (decide (key = "n")) as [->|N5].
  { rewrite (onKeyDown_n w Hw) in Hk. injection Hk as <-. now destruct w. }
  destruct (decide (key = "N")) as [->|N6].
  { rewrite (onKeyDown_N w Hw) in Hk. injection Hk as <-. now destruct w. }
  destruct (decide (key = "r")) as [->|N7].
  { rewrite (onKeyDown_r w Hw) in Hk. injection Hk as <-. now destruct w. }
  destruct (decide (key = "R")) as [->|N8].
  { rewrite (onKeyDown_R w Hw) in Hk. injection Hk as <-. now destruct w. }
  rewrite onKeyDown_other in Hk
    by (repeat (apply not_elem_of_cons; split; [assumption|]); apply not_elem_of_nil).
  injection Hk as <-. now repeat split.
Qed.


Lemma main_then (innerWidth innerHeight : R) (k : M unit) :
  (main (Some {| webgl := true |}) innerWidth innerHeight;; k) boot =
  k (mainWorld innerWidth innerHeight).
Proof. eapply bind_Some; [apply main_spec|reflexivity]. Qed.

Lemma press_reachable (innerWidth innerHeight : R) (keys : list string)
      (w w' : World) :
  reachable innerWidth innerHeight w -> press keys w = Some (tt, w') ->
  reachable innerWidth innerHeight w'.
Proof. intros Hw Hp. exact (run_reachable _ _ _ w w' Hw Hp). Qed.

(** Settling the [decide]s on two key names. *)
Ltac keys :=
  repeat (case_decide;
          try match goal with
              | H : @eq string _ _ |- _ => discriminate H
              | H : ?k <> ?k |- _ => now destruct H
              end).


(** * The camera planes never cross *)

(** C1, as stated, fails: no sequence of key events leads from the initial
    state to a state with [near > far]. *)
Lemma C1_near_gt_far_unreachable :
  ~ (exists (innerWidth innerHeight : R) (keys : list string) (w : World),
        (main (Some {| webgl := true |}) innerWidth innerHeight;; press keys) boot
        = Some (tt, w) /\
        near w > far w).
Proof.
  intros (iw & ih & ks & w & Hrun & Hgt).
  rewrite main_then in Hrun.
  pose proof (press_reachable iw ih ks _ w (reachable_mainWorld iw ih) Hrun) as Hr.
  pose proof (reachable_WF iw ih w Hr) as Hw.
  pose proof (wf_near w Hw). pose proof (wf_far w Hw). lra.
Qed.

(** C1, amended: in every reachable state [near <= 10 <= far], so
    [near <= far] is an invariant of the events and no state with
    [near > far] is reachable. *)
Theorem C1_near_le_far (innerWidth innerHeight : R) (w : World) :
  reachable innerWidth innerHeight w ->
  near w <= 10 <= far w /\ near w <= far w.
Proof.
  intros Hr. pose proof (reachable_WF _ _ w Hr) as Hw.
  pose proof (wf_near w Hw). pose proof (wf_far w Hw). lra.
Qed.

Lemma C1_near_le_far_witness :
  reachable 800 600 (mainWorld 800 600) /\
  (near (mainWorld 800 600) <= 10 <= far (mainWorld 800 600) /\
   near (mainWorld 800 600) <= far (mainWorld 800 600)).
Proof.
  split; [apply reachable_mainWorld|].
  apply (C1_near_le_far 800 600 (mainWorld 800 600)), reachable_mainWorld.
Defined.

(** * The angle between the children *)

(** C3: in every reachable state the angle is in [[0, PI]]; ArrowRight sets
    it to [min(PI, angle + PI/36)] and ArrowLeft to [max(0, angle - PI/36)];
    however often ArrowRight is pressed the angle stays at most [PI], and
    however often ArrowLeft is pressed it stays at least 0. *)
Theorem C3_angle_clamped (innerWidth innerHeight : R) (w : World) :
  reachable innerWidth innerHeight w ->
  0 <= angleBetweenChildren w <= PI /\
  (exists w', onKeyDown "ArrowRight" w = Some (tt, w') /\
              angleBetweenChildren w' = Rmin PI (angleBetweenChildren w + PI / 36)) /\
  (exists w', onKeyDown "ArrowLeft" w = Some (tt, w') /\
              angleBetweenChildren w' = Rmax 0 (angleBetweenChildren w - PI / 36)) /\
  (forall n, exists w', press (repeat "ArrowRight" n) w = Some (tt, w') /\
                        0 <= angleBetweenChildren w' <= PI) /\
  (forall n, exists w', press (repeat "ArrowLeft" n) w = Some (tt, w') /\
                        0 <= angleBetweenChildren w' <= PI).
Proof.
  intros Hr. pose proof (reachable_WF _ _ w Hr) as Hw.
  split; [exact (wf_angle w Hw)|].
  split; [|split].
  - destruct (WF_onKeyDown "ArrowRight" w Hw) as (w' & Hk & _).
    exists w'. split; [exact Hk|].
    destruct (onKeyDown_params _ w w' Hw Hk) as (Ha & _). now keys.
  - destruct (WF_onKeyDown "ArrowLeft" w Hw) as (w' & Hk & _).
    exists w'. split; [exact Hk|].
    destruct (onKeyDown_params _ w w' Hw Hk) as (Ha & _). now keys.
  - split; intros n.
    + destruct (run_WF (KeyDown <$> repeat "ArrowRight" n) w Hw) as (w' & Hp & Hw').
      exists w'. split; [exact Hp|exact (wf_angle w' Hw')].
    + destruct (run_WF (KeyDown <$> repeat "ArrowLeft" n) w Hw) as (w' & Hp & Hw').
      exists w'. split; [exact Hp|exact (wf_angle w' Hw')].
Qed.

Lemma C3_angle_clamped_witness :
  reachable 800 600 (mainWorld 800 600) /\
  0 <= angleBetweenChildren (mainWorld 800 600) <= PI.
Proof.
  split; [apply reachable_mainWorld|].
  apply (C3_angle_clamped 800 600 (mainWorld 800 600)), reachable_mainWorld.
Defined.



Section Binary64.

Import PrimFloat.

(** C7, as stated, fails on the doubles that the program computes with:
    nine presses of ArrowRight from the initial [Math.PI / 4] do not give
    [Math.PI / 2], and a tenth does not give [19 * Math.PI / 36]; the sums
    [a + Math.PI / 36] round. *)
Lemma C7_right_angle_missed :
  Float64.angleBetweenChildren
    (Float64.press (repeat "ArrowRight" 9) Float64.initial)
  <> (Float64.Math_PI / 2)%float /\
  Float64.angleBetweenChildren
    (Float64.press (repeat "ArrowRight" 10) Float64.initial)
  <> (19 * Float64.Math_PI / 36)%float.
Proof.
  split; intros H.
  - apply (f_equal (fun a => (a =? Float64.Math_PI / 2)%float)) in H.
    vm_compute in H. discriminate H.
  - apply (f_equal (fun a => (a =? 19 * Float64.Math_PI / 36)%float)) in H.
    vm_compute in H. discriminate H.
Qed.

(** C7, amended: the page starts at [Math.PI / 4]; nine presses of
    ArrowRight give the double 1.570796326794896, which is 90 degrees up to
    rounding (within [2^-50] of [Math.PI / 2], three units in the last place
    below it), and a tenth gives 1.6580627893946123, which is 95 degrees up
    to rounding (within [2^-50] of [19 * Math.PI / 36]) and at most
    [Math.PI]. *)
Theorem C7_nine_presses_rounded :
  let angle keys :=
    Float64.angleBetweenChildren (Float64.press keys Float64.initial) in
  angle [] = (Float64.Math_PI / 4)%float /\
  angle (repeat "ArrowRight" 9) = 0x1.921fb54442d15p+0%float /\
  (abs (angle (repeat "ArrowRight" 9) - Float64.Math_PI / 2) <=? 0x1p-50)%float
  = true /\
  angle (repeat "ArrowRight" 10) = 0x1.a876cd8f2a15dp+0%float /\
  (abs (angle (repeat "ArrowRight" 10) - 19 * Float64.Math_PI / 36) <=? 0x1p-50)%float
  = true /\
  (angle (repeat "ArrowRight" 10) <=? Float64.Math_PI)%float = true.
Proof. vm_compute. repeat split. Qed.

End Binary64.

(** * The field of view *)

(** Thirteen presses of [f] bring the field of view from 75 to 10 degrees. *)
Lemma press_f_13 (innerWidth innerHeight : R) :
  exists w, press (repeat "f" 13) (mainWorld innerWidth innerHeight) = Some (tt, w) /\
            reachable innerWidth innerHeight w /\ fov w = 10.
Proof.
  destruct (press_repeat "f" (fun k w' => fov w' = Rmax 10 (75 - INR k * 5)))
    with (n := 13%nat) (w := mainWorld innerWidth innerHeight)
    as (w & Hp & Hw & Hf).
  - intros k v v' Hv Hk Hd.
    destruct (onKeyDown_params _ v v' Hv Hd) as (_ & Hf & _). keys.
    rewrite Hf, Hk. apply Rmax_iter. lra.
  - apply WF_mainWorld.
  - change (fov (mainWorld innerWidth innerHeight)) with 75. cbn [INR].
    unfold Rmax. destruct (Rle_dec _ _); lra.
  - exists w. split; [exact Hp|]. split.
    + exact (press_reachable _ _ _ _ w (reachable_mainWorld _ _) Hp).
    + rewrite Hf. cbn [INR]. unfold Rmax. destruct (Rle_dec _ _); lra.
Qed.

(** C8: with the field of view at its lower bound of 10 degrees, the key
    [f] leaves it at 10 degrees, in the variable and in the camera. *)
Theorem C8_fov_floor (innerWidth innerHeight : R) (w : World) :
  reachable innerWidth innerHeight w -> fov w = 10 ->
  exists w', onKeyDown "f" w = Some (tt, w') /\ fov w' = 10 /\
             cam_fov <$> camera w' = Some 10.
Proof.
  intros Hr Hf. pose proof (reachable_WF _ _ w Hr) as Hw.
  exists (reframed (set_fov (Rmax 10 (fov w - 5)) w)).
  split; [exact (onKeyDown_f w Hw)|].
  assert (E : Rmax 10 (fov w - 5) = 10)
    by (rewrite Hf; unfold Rmax; destruct (Rle_dec _ _); lra).
  rewrite E. destruct w. split; reflexivity.
Qed.

Lemma C8_fov_floor_witness :
  exists w, reachable 800 600 w /\ fov w = 10 /\
    exists w', onKeyDown "f" w = Some (tt, w') /\ fov w' = 10 /\
               cam_fov <$> camera w' = Some 10.
Proof.
  destruct (press_f_13 800 600) as (w & _ & Hr & Hf).
  exists w. split; [exact Hr|]. split; [exact Hf|].
  exact (C8_fov_floor 800 600 w Hr Hf).
Defined.


(** * The geometry of an edge *)

Lemma V3_eq (a b : V3.t) :
  V3.x a = V3.x b -> V3.y a = V3.y b -> V3.z a = V3.z b -> a = b.
Proof. destruct a, b. cbn. now intros -> -> ->. Qed.

Lemma lengthSq_nonneg (v : V3.t) : 0 <= V3.lengthSq v.
Proof. unfold V3.lengthSq. nra. Qed.

Lemma length_nonneg (v : V3.t) : 0 <= V3.length v.
Proof. apply sqrt_pos. Qed.

Lemma length_zero_iff (v : V3.t) : V3.length v = 0 <-> V3.lengthSq v = 0.
Proof.
  unfold V3.length. split; intros H.
  - apply sqrt_eq_0; [apply lengthSq_nonneg|exact H].
  - rewrite H. apply sqrt_0.
Qed.

Lemma lengthSq_zero_iff (v : V3.t) : V3.lengthSq v = 0 <-> v = V3.zero.
Proof.
  split.
  - unfold V3.lengthSq. intros H. apply V3_eq; cbn; nra.
  - intros ->. unfold V3.lengthSq. cbn. lra.
Qed.


Lemma normalize_nonzero (v : V3.t) :
  v <> V3.zero ->
  V3.normalize v = V3.multiplyScalar v (1 / V3.length v) /\ 0 < V3.length v.
Proof.
  intros Hv.
  assert (Hl : V3.length v <> 0).
  { intros H. apply Hv. now apply lengthSq_zero_iff, length_zero_iff. }
  split; [|pose proof (length_nonneg v); lra].
  unfold V3.normalize, V3.divideScalar. now destruct (Req_dec_T _ _).
Qed.

(** Scaling by a positive factor does not change the unit vector. *)
Lemma normalize_scaled (v : V3.t) (k : R) :
  0 < k -> V3.normalize (V3.multiplyScalar v k) = V3.normalize v.
Proof.
  intros Hk.
  assert (Hlen : V3.length (V3.multiplyScalar v k) = k * V3.length v).
  { unfold V3.length.
    replace (V3.lengthSq (V3.multiplyScalar v k)) with (k * k * V3.lengthSq v)
      by (unfold V3.lengthSq, V3.multiplyScalar; cbn; ring).
    rewrite sqrt_mult; [|nra|apply lengthSq_nonneg].
    now rewrite sqrt_square by lra. }
  unfold V3.normalize, V3.divideScalar. rewrite Hlen.
  destruct (Req_dec_T (k * V3.length v) 0) as [E|E];
    destruct (Req_dec_T (V3.length v) 0) as [E'|E']; try nra.
  - destruct v as [a b c].
    assert (Hz : V3.mk a b c = V3.zero)
      by now apply lengthSq_zero_iff, length_zero_iff.
    injection Hz as -> -> ->. unfold V3.multiplyScalar. cbn. f_equal; lra.
  - unfold V3.multiplyScalar. cbn. f_equal; field; lra.
Qed.

(** The long axis of an edge is the Z column of the [lookAt] matrix: the
    quarter turn about X carries the local Y axis onto the local Z axis. *)
Lemma longAxis_edgeMesh (start end_ : V3.t) :
  longAxis (edgeMesh start end_) =
  Rot.ez (Rot.lookAt end_
            (V3.addScaledVector start (V3.subVectors end_ start) 0.5) DEFAULT_UP).
Proof.
  unfold longAxis, edgeMesh, Object3D_rotateX, Object3D_lookAt, set_position.
  cbn [quaternion position geometry color Mesh].
  unfold Rot.multiply, Rot.aboutX, Rot.apply.
  cbn [Rot.ex Rot.ey Rot.ez V3.x V3.y V3.z].
  rewrite cos_PI2, sin_PI2. apply V3_eq; cbn [V3.x V3.y V3.z]; ring.
Qed.

(** From the centre of an edge, its end lies half the way along it. *)
Lemma centre_to_end (start end_ : V3.t) :
  V3.subVectors end_ (V3.addScaledVector start (V3.subVectors end_ start) 0.5) =
  V3.multiplyScalar (V3.subVectors end_ start) 0.5.
Proof.
  unfold V3.subVectors, V3.addScaledVector, V3.multiplyScalar.
  apply V3_eq; cbn [V3.x V3.y V3.z]; lra.
Qed.

(** [lookAt] where the line of sight is not parallel to [up]. *)
Lemma lookAt_ez_regular (eye target up : V3.t) :
  V3.subVectors eye target <> V3.zero ->
  V3.crossVectors up (V3.normalize (V3.subVectors eye target)) <> V3.zero ->
  Rot.ez (Rot.lookAt eye target up) = V3.normalize (V3.subVectors eye target).
Proof.
  intros Hz Hx. unfold Rot.lookAt. cbv zeta.
  destruct (Req_dec_T (V3.lengthSq (V3.subVectors eye target)) 0) as [E|_].
  { exfalso. now apply Hz, lengthSq_zero_iff. }
  destruct (Req_dec_T _ 0) as [E|_].
  { exfalso. now apply Hx, lengthSq_zero_iff. }
  reflexivity.
Qed.


Lemma sameDirection_normalize (v : V3.t) :
  v <> V3.zero -> V3.sameDirection (V3.normalize v) v.
Proof.
  intros Hv. destruct (normalize_nonzero v Hv) as [-> Hl].
  exists (1 / V3.length v). split; [|reflexivity].
  apply Rdiv_lt_0_compat; lra.
Qed.


(** The long axis of an edge that is not parallel to the Y axis. *)
Lemma edgeMesh_axis (start end_ : V3.t) :
  V3.x end_ <> V3.x start \/ V3.z end_ <> V3.z start ->
  longAxis (edgeMesh start end_) = V3.normalize (V3.subVectors end_ start).
Proof.
  intros Hxz. set (d := V3.subVectors end_ start).
  assert (Hd : d <> V3.zero).
  { intros H. apply (f_equal V3.x) in H as Hx. apply (f_equal V3.z) in H as Hz.
    cbn in Hx, Hz. lra. }
  rewrite longAxis_edgeMesh, lookAt_ez_regular; rewrite centre_to_end; fold d.
  - apply normalize_scaled. lra.
  - intros H. apply Hd. apply V3_eq; apply (f_equal V3.x) in H as Hx;
      apply (f_equal V3.y) in H as Hy; apply (f_equal V3.z) in H as Hz;
      cbn in *; lra.
  - rewrite normalize_scaled by lra.
    destruct (normalize_nonzero d Hd) as [-> Hl].
    assert (Hk : 0 < 1 / V3.length d) by (apply Rdiv_lt_0_compat; lra).
    intros Hc. apply (f_equal V3.x) in Hc as Hx. apply (f_equal V3.z) in Hc as Hz.
    cbn in Hx, Hz. destruct Hxz; nra.
Qed.

(** No child is straight below the root. *)
Lemma child_not_below (a : R) :
  (V3.x (childPosition1 a) <> V3.x V3.zero \/ V3.z (childPosition1 a) <> V3.z V3.zero) /\
  (V3.x (childPosition2 a) <> V3.x V3.zero \/ V3.z (childPosition2 a) <> V3.z V3.zero).
Proof.
  pose proof (sin2_cos2 (a / 2)) as H. unfold Rsqr in H.
  unfold childPosition1, childPosition2. cbn [V3.x V3.z V3.zero].
  destruct (Req_dec (cos (a / 2)) 0) as [Hc|Hc].
  - split; left; nra.
  - split; right; nra.
Qed.




(** * The positions of the children *)

Lemma set_angle_same (w : World) :
  set_angleBetweenChildren (angleBetweenChildren w) w = w.
Proof. now destruct w. Qed.

(** [updateChildPositions] in a state of the page, whatever the angle was
    set to just before. *)
Lemma updateChildPositions_angle (w : World) (a : R) :
  WF w ->
  updateChildPositions (set_angleBetweenChildren a w) =
  Some (tt, rebuilt (set_angleBetweenChildren a w)).
Proof.
  intros [Hm Hc1 Hc2 Hch Hn H0 H1 H2 He Hcam Hh Hr Ha Hf Hne Hfa Hcalls].
  destruct He as (e1 & e2 & l & He1 & He2 & He12 & He1n & He2n & He17 & He27
                  & Hh1 & Hh2 & Hl & Hfresh & Hfilter).
  eapply updateChildPositions_rebuilt; try eassumption. cbn. lia.
Qed.

Lemma updateChildPositions_WF (w : World) :
  WF w -> updateChildPositions w = Some (tt, rebuilt w) /\ WF (rebuilt w).
Proof.
  intros Hw.
  pose proof (updateChildPositions_angle w (angleBetweenChildren w) Hw) as H.
  pose proof (WF_rebuilt w (angleBetweenChildren w) Hw (wf_angle w Hw)) as H'.
  rewrite set_angle_same in H, H'. now split.
Qed.

Lemma positionOf_Some (var : World -> option handle) (w : World) (h : handle)
      (o : Object3D) :
  var w = Some h -> heap w !! h = Some o -> positionOf var w = Some (position o).
Proof.
  intros Hv Ho. unfold positionOf. rewrite Hv. cbn [mbind option_bind].
  now rewrite Ho.
Qed.

Lemma geometryOf_Some (var : World -> option handle) (w : World) (h : handle)
      (o : Object3D) :
  var w = Some h -> heap w !! h = Some o -> geometryOf var w = Some (geometry o).
Proof.
  intros Hv Ho. unfold geometryOf. rewrite Hv. cbn [mbind option_bind].
  now rewrite Ho.
Qed.

(** In a state of the page the children are where the angle puts them. *)
Lemma WF_positions (w : World) :
  WF w ->
  positionOf mainSphere w = Some V3.zero /\
  positionOf childSphere1 w = Some (childPosition1 (angleBetweenChildren w)) /\
  positionOf childSphere2 w = Some (childPosition2 (angleBetweenChildren w)).
Proof.
  intros Hw. split; [|split].
  - exact (positionOf_Some _ w _ _ (wf_mainSphere w Hw) (wf_root w Hw)).
  - exact (positionOf_Some _ w _ _ (wf_childSphere1 w Hw) (wf_child1 w Hw)).
  - exact (positionOf_Some _ w _ _ (wf_childSphere2 w Hw) (wf_child2 w Hw)).
Qed.

Lemma sqrt2_bounds : 1.41421 < sqrt 2 < 1.41422.
Proof.
  pose proof (sqrt_sqrt 2 ltac:(lra)) as H. pose proof (sqrt_pos 2) as Hp. nra.
Qed.

(** sin and cos of 22.5 degrees, to four places. *)
Lemma sin_cos_PI8 :
  0.3826 < sin (PI / 4 / 2) < 0.3827 /\ 0.9238 < cos (PI / 4 / 2) < 0.9239.
Proof.
  pose proof PI_RGT_0 as Hpi.
  assert (Hs : 0 < sin (PI / 4 / 2)) by (apply sin_gt_0; lra).
  assert (Hc : 0 < cos (PI / 4 / 2)) by (apply cos_gt_0; lra).
  pose proof (cos_2a_cos (PI / 4 / 2)) as H1.
  pose proof (cos_2a_sin (PI / 4 / 2)) as H2.
  replace (2 * (PI / 4 / 2)) with (PI / 4) in H1, H2 by lra.
  rewrite cos_PI4 in H1, H2.
  pose proof sqrt2_bounds as Hr.
  assert (Hk : 0.7071 < 1 / sqrt 2 < 0.70711).
  { split.
    - apply Rmult_lt_reg_r with (sqrt 2); [lra|].
      unfold Rdiv. rewrite Rmult_assoc, Rinv_l by lra. lra.
    - apply Rmult_lt_reg_r with (sqrt 2); [lra|].
      unfold Rdiv. rewrite Rmult_assoc, Rinv_l by lra. lra. }
  split; split; nra.
Qed.

(** C2: for every angle in [[0, PI]], [updateChildPositions] puts the two
    children at [(sin(angle/2)*3, -3, -cos(angle/2)*3)] and
    [(-sin(angle/2)*3, -3, -cos(angle/2)*3)]: mirror images in x, with the
    same y and z; at 45 degrees that is (1.148, -3, -2.772) and
    (-1.148, -3, -2.772) to three places. *)
Theorem C2_child_positions (innerWidth innerHeight : R) (w : World) (a : R) :
  reachable innerWidth innerHeight w -> 0 <= a <= PI ->
  exists w' p1 p2,
    updateChildPositions (set_angleBetweenChildren a w) = Some (tt, w') /\
    positionOf childSphere1 w' = Some p1 /\
    positionOf childSphere2 w' = Some p2 /\
    p1 = V3.mk (sin (a / 2) * 3) (- (3)) (- cos (a / 2) * 3) /\
    p2 = V3.mk (- sin (a / 2) * 3) (- (3)) (- cos (a / 2) * 3) /\
    V3.x p2 = - V3.x p1 /\ V3.y p2 = V3.y p1 /\ V3.z p2 = V3.z p1 /\
    (a = PI / 4 ->
     Rabs (V3.x p1 - 1.148) < 0.001 /\ Rabs (V3.x p2 - -1.148) < 0.001 /\
     V3.y p1 = -3 /\ V3.y p2 = -3 /\
     Rabs (V3.z p1 - -2.772) < 0.001 /\ Rabs (V3.z p2 - -2.772) < 0.001).
Proof.
  intros Hr Ha. pose proof (reachable_WF _ _ w Hr) as Hw.
  exists (rebuilt (set_angleBetweenChildren a w)),
         (childPosition1 a), (childPosition2 a).
  split; [now apply updateChildPositions_angle|].
  destruct (WF_positions _ (WF_rebuilt w a Hw Ha)) as (_ & Hp1 & Hp2).
  replace (angleBetweenChildren (rebuilt (set_angleBetweenChildren a w)))
    with a in Hp1, Hp2 by now destruct w.
  split; [exact Hp1|]. split; [exact Hp2|].
  unfold childPosition1, childPosition2. cbn [V3.x V3.y V3.z].
  split; [reflexivity|]. split; [reflexivity|].
  split; [lra|]. split; [reflexivity|]. split; [reflexivity|].
  intros ->. destruct sin_cos_PI8 as [[? ?] [? ?]].
  repeat split; try lra; apply Rabs_def1; lra.
Qed.

Lemma C2_child_positions_witness :
  reachable 800 600 (mainWorld 800 600) /\ 0 <= PI / 4 <= PI /\
  exists w' p1 p2,
    updateChildPositions (set_angleBetweenChildren (PI / 4) (mainWorld 800 600))
      = Some (tt, w') /\
    positionOf childSphere1 w' = Some p1 /\
    positionOf childSphere2 w' = Some p2 /\
    Rabs (V3.x p1 - 1.148) < 0.001 /\ Rabs (V3.x p2 - -1.148) < 0.001 /\
    V3.y p1 = -3 /\ V3.y p2 = -3 /\
    Rabs (V3.z p1 - -2.772) < 0.001 /\ Rabs (V3.z p2 - -2.772) < 0.001.
Proof.
  split; [apply reachable_mainWorld|]. split; [exact PI4_range|].
  destruct (C2_child_positions 800 600 (mainWorld 800 600) (PI / 4)
              (reachable_mainWorld 800 600) PI4_range)
    as (w' & p1 & p2 & Hu & Hp1 & Hp2 & _ & _ & _ & _ & _ & Hnum).
  exists w', p1, p2. split; [exact Hu|]. split; [exact Hp1|]. split; [exact Hp2|].
  exact (Hnum eq_refl).
Defined.


(** * The edges in the scene *)

Lemma WF_edgesInScene (w : World) :
  WF w ->
  exists e1 e2, edge1 w = Some e1 /\ edge2 w = Some e2 /\ e1 <> e2 /\
                edgesInScene w = [e1; e2].
Proof.
  intros Hw. destruct (wf_edges w Hw)
    as (e1 & e2 & l & He1 & He2 & He12 & _ & _ & _ & _ & _ & _ & Hl & _ & Hf).
  exists e1, e2. unfold edgesInScene. rewrite Hl. now repeat split.
Qed.

Lemma filter_nil_not_in (P : handle -> bool) (h : handle) (l : list handle) :
  List.filter P l = [] -> P h = true -> ~ In h l.
Proof.
  intros Hf Hh Hin.
  assert (Hin' : In h (List.filter P l)) by now apply List.filter_In.
  now rewrite Hf in Hin'.
Qed.

(** The edges recorded before [updateChildPositions] are not in the scene
    after it. *)
Lemma rebuilt_drops_old_edges (w : World) (e : handle) :
  WF w -> edge1 w = Some e \/ edge2 w = Some e ->
  ~ In e (default [] (scene (rebuilt w))).
Proof.
  intros Hw He. destruct (wf_edges w Hw)
    as (e1 & e2 & l & He1 & He2 & He12 & He1n & He2n & _ & _ & Hh1 & Hh2 & Hl
        & Hfresh & Hf).
  assert (Hen : (e < next w)%nat) by (destruct He; simplify_eq; lia).
  assert (Hedge : isEdge (heap w) e = true)
    by (destruct He; simplify_eq; eauto using isEdge_edgeMesh).
  destruct w as [hp nx rd sc cm ms cs1 cs2 oe1 oe2 ch fv nr fr an calls].
  cbn in *. subst. cbn [without default].
  rewrite in_app_iff. intros [Hin|Hin].
  - revert Hin. apply (filter_nil_not_in (isEdge hp)); [|exact Hedge].
    apply (filter_without_edges _ e1 e2); eauto using isEdge_edgeMesh.
  - cbn in Hin. lia.
Qed.

(** C4: two calls of [updateChildPositions] in a row, with the same
    endpoints, leave exactly two edges in the scene: the two that are
    recorded in [edge1] and [edge2].  Each call takes the edges recorded
    before it out of the scene. *)
Theorem C4_two_edges (innerWidth innerHeight : R) (w : World) :
  reachable innerWidth innerHeight w ->
  exists w1 w2,
    updateChildPositions w = Some (tt, w1) /\
    updateChildPositions w1 = Some (tt, w2) /\
    (positionOf mainSphere w1 = positionOf mainSphere w /\
     positionOf childSphere1 w1 = positionOf childSphere1 w /\
     positionOf childSphere2 w1 = positionOf childSphere2 w) /\
    length (edgesInScene w1) = 2%nat /\
    length (edgesInScene w2) = 2%nat /\
    (exists e1 e2, edge1 w2 = Some e1 /\ edge2 w2 = Some e2 /\ e1 <> e2 /\
                   edgesInScene w2 = [e1; e2]) /\
    (forall e, edge1 w = Some e \/ edge2 w = Some e ->
               ~ In e (default [] (scene w1))) /\
    (forall e, edge1 w1 = Some e \/ edge2 w1 = Some e ->
               ~ In e (default [] (scene w2))).
Proof.
  intros Hr. pose proof (reachable_WF _ _ w Hr) as Hw.
  destruct (updateChildPositions_WF w Hw) as [Hu1 Hw1].
  destruct (updateChildPositions_WF _ Hw1) as [Hu2 Hw2].
  exists (rebuilt w), (rebuilt (rebuilt w)).
  split; [exact Hu1|]. split; [exact Hu2|].
  destruct (WF_positions w Hw) as (Pm & P1 & P2).
  destruct (WF_positions _ Hw1) as (Pm1 & P11 & P21).
  replace (angleBetweenChildren (rebuilt w)) with (angleBetweenChildren w)
    in P11, P21 by now destruct w.
  split; [now rewrite Pm, P1, P2, Pm1, P11, P21|].
  destruct (WF_edgesInScene _ Hw1) as (a1 & a2 & _ & _ & _ & E1).
  destruct (WF_edgesInScene _ Hw2) as (b1 & b2 & B1 & B2 & B12 & E2).
  split; [now rewrite E1|]. split; [now rewrite E2|].
  split; [now exists b1, b2|].
  split; intros e He; now apply rebuilt_drops_old_edges.
Qed.

Lemma C4_two_edges_witness :
  reachable 800 600 (mainWorld 800 600) /\
  exists w1 w2,
    updateChildPositions (mainWorld 800 600) = Some (tt, w1) /\
    updateChildPositions w1 = Some (tt, w2) /\
    length (edgesInScene w2) = 2%nat.
Proof.
  split; [apply reachable_mainWorld|].
  destruct (C4_two_edges 800 600 (mainWorld 800 600) (reachable_mainWorld 800 600))
    as (w1 & w2 & H1 & H2 & _ & _ & H3 & _).
  now exists w1, w2.
Defined.

(** * Resizing the window *)

(** C9: a resize sets the camera's aspect ratio to width / height, renews
    the projection matrix, the renderer's size and the frustum helper, and
    leaves everything else as it was: the three camera parameters (in the
    variables and in the camera), the angle, the spheres, the edges and the
    scene. *)
Theorem C9_resize_frame (innerWidth0 innerHeight0 : R) (w : World)
        (innerWidth innerHeight : R) :
  reachable innerWidth0 innerHeight0 w ->
  exists w' cam cam',
    onWindowResize innerWidth innerHeight w = Some (tt, w') /\
    camera w = Some cam /\ camera w' = Some cam' /\
    (* what changes *)
    cam_aspect cam' = innerWidth / innerHeight /\
    projectionMatrix cam' =
      mkFrustum (cam_fov cam) (innerWidth / innerHeight) (cam_near cam) (cam_far cam) /\
    renderer w' = Some (innerWidth, innerHeight) /\
    geometryOf cameraHelper w' = Some (CameraHelperGeometry (projectionMatrix cam')) /\
    (* what does not *)
    cam_fov cam' = cam_fov cam /\ cam_near cam' = cam_near cam /\
    cam_far cam' = cam_far cam /\
    fov w' = fov w /\ near w' = near w /\ far w' = far w /\
    angleBetweenChildren w' = angleBetweenChildren w /\
    scene w' = scene w /\ edge1 w' = edge1 w /\ edge2 w' = edge2 w /\
    mainSphere w' = mainSphere w /\ childSphere1 w' = childSphere1 w /\
    childSphere2 w' = childSphere2 w /\ cameraHelper w' = cameraHelper w /\
    next w' = next w /\ createEdgeCalls w' = createEdgeCalls w /\
    (forall h, cameraHelper w <> Some h -> heap w' !! h = heap w !! h).
Proof.
  intros Hr. pose proof (reachable_WF _ _ w Hr) as Hw.
  exists (resized innerWidth innerHeight w),
         (PerspectiveCamera (fov w) (aspectOf w) (near w) (far w)),
         (PerspectiveCamera (fov w) (innerWidth / innerHeight) (near w) (far w)).
  split; [now apply onWindowResize_resized|].
  split; [exact (wf_camera w Hw)|].
  pose proof (wf_cameraHelper w Hw) as Hch.
  assert (Hg : geometryOf cameraHelper (resized innerWidth innerHeight w) =
               Some (CameraHelperGeometry
                       (mkFrustum (fov w) (innerWidth / innerHeight) (near w) (far w)))).
  { apply (geometryOf_Some _ _ 7%nat
             (Mesh (CameraHelperGeometry
                      (mkFrustum (fov w) (innerWidth / innerHeight) (near w) (far w)))
                   0xffffff)).
    - now destruct w.
    - destruct w. cbn. now lookups. }
  split; [now destruct w|].
  do 3 (split; [reflexivity|]). split; [exact Hg|].
  do 3 (split; [reflexivity|]).
  do 13 (split; [now destruct w|]).
  intros h Hh. rewrite Hch in Hh.
  assert (7%nat <> h) by (intros E; apply Hh; now f_equal).
  destruct w as [hp nx rd sc cm ms cs1 cs2 oe1 oe2 ch fv nr fr an calls].
  cbn [heap resized set_heap set_renderer set_camera].
  now rewrite lookup_insert_ne.
Qed.

Lemma C9_resize_frame_witness :
  reachable 800 600 (mainWorld 800 600) /\
  exists w' cam',
    onWindowResize 1024 768 (mainWorld 800 600) = Some (tt, w') /\
    camera w' = Some cam' /\ cam_aspect cam' = 1024 / 768 /\
    fov w' = 75 /\ near w' = 0.1 /\ far w' = 50 /\
    angleBetweenChildren w' = PI / 4.
Proof.
  split; [apply reachable_mainWorld|].
  destruct (C9_resize_frame 800 600 (mainWorld 800 600) 1024 768
              (reachable_mainWorld 800 600))
    as (w' & cam & cam' & H1 & _ & H2 & H3 & _ & _ & _ & _ & _ & _
        & H4 & H5 & H6 & H7 & _).
  exists w', cam'. split; [exact H1|]. split; [exact H2|]. split; [exact H3|].
  split; [exact H4|]. split; [exact H5|]. split; [exact H6|]. exact H7.
Defined.

(** * No edge of length zero *)

Lemma sqrt_18 : sqrt 18 = 3 * sqrt 2.
Proof.
  replace 18 with (3 * 3 * 2) by lra.
  rewrite sqrt_mult by lra. now rewrite sqrt_square by lra.
Qed.

(** Both children are at distance [3 * sqrt 2] from the origin, whatever
    the angle. *)
Lemma child_distance (a : R) :
  V3.length (V3.subVectors (childPosition1 a) V3.zero) = 3 * sqrt 2 /\
  V3.length (V3.subVectors (childPosition2 a) V3.zero) = 3 * sqrt 2.
Proof.
  pose proof (sin2_cos2 (a / 2)) as H. unfold Rsqr in H.
  unfold V3.length, V3.lengthSq, childPosition1, childPosition2.
  cbn [V3.subVectors V3.zero V3.x V3.y V3.z].
  split; rewrite <- sqrt_18; f_equal; nra.
Qed.

Lemma sqrt2_positive : 0 < 3 * sqrt 2.
Proof. pose proof sqrt2_bounds. lra. Qed.

Lemma rootToChild_apart (call : V3.t * V3.t) :
  rootToChild call ->
  V3.length (V3.subVectors (snd call) (fst call)) = 3 * sqrt 2 /\
  fst call <> snd call.
Proof.
  intros [Hs (a & _ & He)]. rewrite Hs.
  assert (Hlen : V3.length (V3.subVectors (snd call) V3.zero) = 3 * sqrt 2)
    by (destruct (child_distance a); destruct He as [-> | ->]; assumption).
  split; [exact Hlen|]. intros E. rewrite <- E in Hlen.
  unfold V3.length, V3.lengthSq in Hlen. cbn in Hlen.
  replace (_ + _ + _) with 0 in Hlen by lra. rewrite sqrt_0 in Hlen.
  pose proof sqrt2_positive. lra.
Qed.

(** C10: every call of [createEdge] goes from the root at the origin to a
    child at [(+-sin(a/2)*3, -3, -cos(a/2)*3)] for an angle [a] in
    [[0, PI]]; the two endpoints are [3 * sqrt 2] apart, so they never
    coincide.  At angle 0 the two children coincide with each other, not
    with the root. *)
Theorem C10_no_degenerate_edge (innerWidth innerHeight : R) (w : World) :
  reachable innerWidth innerHeight w ->
  Forall (fun call =>
            fst call = V3.mk 0 0 0 /\
            (exists a, 0 <= a <= PI /\
               (snd call = V3.mk (sin (a / 2) * 3) (- (3)) (- cos (a / 2) * 3) \/
                snd call = V3.mk (- sin (a / 2) * 3) (- (3)) (- cos (a / 2) * 3))) /\
            V3.length (V3.subVectors (snd call) (fst call)) = 3 * sqrt 2 /\
            0 < V3.length (V3.subVectors (snd call) (fst call)) /\
            fst call <> snd call)
         (createEdgeCalls w) /\
  createEdgeCalls w <> [] /\
  childPosition1 0 = childPosition2 0 /\ childPosition1 0 <> V3.mk 0 0 0.
Proof.
  intros Hr. pose proof (reachable_WF _ _ w Hr) as Hw. split; [|split; [|split]].
  - eapply Forall_impl; [exact (wf_calls w Hw)|]. cbn beta. intros call Hc.
    destruct (rootToChild_apart call Hc) as [Hlen Hne].
    destruct Hc as [Hs Ha].
    split; [exact Hs|]. split; [exact Ha|]. split; [exact Hlen|].
    split; [rewrite Hlen; exact sqrt2_positive|exact Hne].
  - clear Hw. induction Hr as [c w Hmain|w e w' Hr IH Hs].
    + now apply main_inv in Hmain as ->.
    + destruct e as [key|iw ih| |]; unfold step in Hs; cbn [dispatch] in Hs.
      * pose proof (reachable_WF _ _ w Hr) as Hw.
        destruct (decide (key = "ArrowLeft")) as [->|N1].
        { rewrite (onKeyDown_ArrowLeft w Hw) in Hs. injection Hs as <-. now destruct w. }
        destruct (decide (key = "ArrowRight")) as [->|N2].
        { rewrite (onKeyDown_ArrowRight w Hw) in Hs. injection Hs as <-. now destruct w. }
        destruct (decide (key = "f")) as [->|N3].
        { rewrite (onKeyDown_f w Hw) in Hs. injection Hs as <-. now destruct w. }
        destruct (decide (key = "F")) as [->|N4].
        { rewrite (onKeyDown_F w Hw) in Hs. injection Hs as <-. now destruct w. }
        destruct (decide (key = "n")) as [->|N5].
        { rewrite (onKeyDown_n w Hw) in Hs. injection Hs as <-. now destruct w. }
        destruct (decide (key = "N")) as [->|N6].
        { rewrite (onKeyDown_N w Hw) in Hs. injection Hs as <-. now destruct w. }
        destruct (decide (key = "r")) as [->|N7].
        { rewrite (onKeyDown_r w Hw) in Hs. injection Hs as <-. now destruct w. }
        destruct (decide (key = "R")) as [->|N8].
        { rewrite (onKeyDown_R w Hw) in Hs. injection Hs as <-. now destruct w. }
        rewrite onKeyDown_other in Hs
          by (repeat (apply not_elem_of_cons; split; [assumption|]);
              apply not_elem_of_nil).
        now injection Hs as <-.
      * rewrite (onWindowResize_resized _ _ w (reachable_WF _ _ w Hr)) in Hs.
        injection Hs as <-. now destruct w.
      * rewrite (onFontLoaded_labelled w (reachable_WF _ _ w Hr)) in Hs.
        injection Hs as <-. now destruct w.
      * unfold render, mret, M_ret in Hs. now injection Hs as <-.
  - unfold childPosition1, childPosition2. cbv zeta.
    replace (0 / 2) with 0 by lra. rewrite sin_0. f_equal; lra.
  - intros E. apply (f_equal V3.y) in E. cbn in E. lra.
Qed.

Lemma C10_no_degenerate_edge_witness :
  reachable 800 600 (mainWorld 800 600) /\
  createEdgeCalls (mainWorld 800 600) <> [].
Proof.
  split; [apply reachable_mainWorld|].
  apply (C10_no_degenerate_edge 800 600 (mainWorld 800 600)), reachable_mainWorld.
Defined.


(** * Further properties of the parameter state *)

(** Resizing, the font callback and a frame leave the four parameters. *)
Lemma dispatch_other_params (e : Event) (w w' : World) :
  WF w -> (forall key, e <> KeyDown key) -> dispatch e w = Some (tt, w') ->
  angleBetweenChildren w' = angleBetweenChildren w /\ fov w' = fov w /\
  near w' = near w /\ far w' = far w.
Proof.
  intros Hw He Hd. destruct e as [key|iw ih| |]; cbn [dispatch] in Hd.
  - now destruct (He key).
  - rewrite (onWindowResize_resized iw ih w Hw) in Hd. injection Hd as <-.
    now destruct w.
  - rewrite (onFontLoaded_labelled w Hw) in Hd. injection Hd as <-.
    now destruct w.
  - unfold render, mret, M_ret in Hd. injection Hd as <-. now repeat split.
Qed.

Lemma dispatch_params (w w' : World) (e : Event) :
  WF w -> dispatch e w = Some (tt, w') ->
  let key := match e with KeyDown k => k | _ => "" end in
  angleBetweenChildren w' =
    (if decide (key = "ArrowLeft") then Rmax 0 (angleBetweenChildren w - PI / 36)
     else if decide (key = "ArrowRight") then Rmin PI (angleBetweenChildren w + PI / 36)
     else angleBetweenChildren w) /\
  fov w' =
    (if decide (key = "f") then Rmax 10 (fov w - 5)
     else if decide (key = "F") then Rmin 120 (fov w + 5)
     else fov w) /\
  near w' =
    (if decide (key = "n") then Rmax 0.1 (near w - 0.1)
     else if decide (key = "N") then Rmin 10 (near w + 0.1)
     else near w) /\
  far w' =
    (if decide (key = "r") then Rmax 10 (far w - 5)
     else if decide (key = "R") then Rmin 100 (far w + 5)
     else far w).
Proof.
  intros Hw Hs. destruct e as [k|iw ih| |].
  - exact (onKeyDown_params k w w' Hw Hs).
  - cbv zeta. keys. now apply (dispatch_other_params (WindowResize iw ih)).
  - cbv zeta. keys. now apply (dispatch_other_params FontLoaded).
  - cbv zeta. keys. now apply (dispatch_other_params AnimationFrame).
Qed.

(** X1.  The four parameters follow a machine of their own: a key moves
    one of them by its step and clamps it, and nothing else (no other key,
    no resize, no font callback, no frame) moves any of them. *)
Theorem parameters_step (innerWidth innerHeight : R) (w w' : World) (e : Event) :
  reachable innerWidth innerHeight w -> step w e w' ->
  let key := match e with KeyDown k => k | _ => "" end in
  angleBetweenChildren w' =
    (if decide (key = "ArrowLeft") then Rmax 0 (angleBetweenChildren w - PI / 36)
     else if decide (key = "ArrowRight") then Rmin PI (angleBetweenChildren w + PI / 36)
     else angleBetweenChildren w) /\
  fov w' =
    (if decide (key = "f") then Rmax 10 (fov w - 5)
     else if decide (key = "F") then Rmin 120 (fov w + 5)
     else fov w) /\
  near w' =
    (if decide (key = "n") then Rmax 0.1 (near w - 0.1)
     else if decide (key = "N") then Rmin 10 (near w + 0.1)
     else near w) /\
  far w' =
    (if decide (key = "r") then Rmax 10 (far w - 5)
     else if decide (key = "R") then Rmin 100 (far w + 5)
     else far w).
Proof.
  intros Hr Hs. exact (dispatch_params w w' e (reachable_WF _ _ w Hr) Hs).
Qed.

Lemma parameters_step_witness :
  exists w', reachable 800 600 (mainWorld 800 600) /\
             step (mainWorld 800 600) (KeyDown "F") w' /\ fov w' = 80.
Proof.
  pose proof (reachable_mainWorld 800 600) as Hr.
  destruct (WF_onKeyDown "F" _ (reachable_WF _ _ _ Hr)) as (w' & Hk & _).
  exists w'. split; [exact Hr|]. split; [exact Hk|].
  destruct (parameters_step 800 600 _ w' (KeyDown "F") Hr Hk) as (_ & Hf & _).
  rewrite Hf. keys. change (fov (mainWorld 800 600)) with 75.
  unfold Rmin. destruct (Rle_dec _ _); lra.
Defined.

(** X2.  In a state of the page no handler throws: every sequence of
    events is handled to the end, and leads to a state of the page again. *)
Theorem handlers_never_throw (innerWidth innerHeight : R) (w : World)
        (es : list Event) :
  reachable innerWidth innerHeight w ->
  exists w', run es w = Some (tt, w') /\ reachable innerWidth innerHeight w'.
Proof.
  intros Hr. destruct (run_WF es w (reachable_WF _ _ w Hr)) as (w' & Hrun & _).
  exists w'. split; [exact Hrun|]. exact (run_reachable _ _ es w w' Hr Hrun).
Qed.

Lemma handlers_never_throw_witness :
  reachable 800 600 (mainWorld 800 600) /\
  exists w', run [KeyDown "ArrowLeft"; WindowResize 1024 768; FontLoaded;
                  KeyDown "x"; AnimationFrame; KeyDown "R"] (mainWorld 800 600)
             = Some (tt, w') /\ reachable 800 600 w'.
Proof.
  split; [apply reachable_mainWorld|].
  apply (handlers_never_throw 800 600), reachable_mainWorld.
Defined.

(** X3.  Before [main] has run the handlers do throw: with no child sphere
    the arrow keys fail, with no camera the six camera keys and the resize
    handler fail, and with no scene the font callback fails. *)
Theorem handlers_throw_without_main (w : World) (innerWidth innerHeight : R) :
  (childSphere1 w = None ->
   updateChildPositions w = None /\
   onKeyDown "ArrowLeft" w = None /\ onKeyDown "ArrowRight" w = None) /\
  (camera w = None ->
   updateCamera w = None /\ onWindowResize innerWidth innerHeight w = None /\
   Forall (fun key => onKeyDown key w = None) ["f"; "F"; "n"; "N"; "r"; "R"]) /\
  (scene w = None -> onFontLoaded w = None).
Proof.
  split; [|split].
  - intros Hc.
    assert (Hu : forall a, updateChildPositions (set_angleBetweenChildren a w) = None).
    { intros a. unfold updateChildPositions.
      eapply bind_Some; [reflexivity|]. cbv beta.
      apply bind_None. unfold defined. destruct w. cbn in *. now rewrite Hc. }
    split; [|split].
    + rewrite <- (set_angle_same w). apply Hu.
    + pick_key. eapply bind_Some; [reflexivity|]. cbv beta.
      eapply bind_Some; [reflexivity|]. cbv beta. apply Hu.
    + pick_key. eapply bind_Some; [reflexivity|]. cbv beta.
      eapply bind_Some; [reflexivity|]. cbv beta. apply Hu.
  - intros Hc.
    assert (Hu : forall w0, camera w0 = None -> updateCamera w0 = None).
    { intros w0 H0. unfold updateCamera. apply bind_None. unfold defined.
      now rewrite H0. }
    split; [now apply Hu|]. split.
    + unfold onWindowResize. apply bind_None. unfold defined. now rewrite Hc.
    + repeat constructor; pick_key;
        (eapply bind_Some; [reflexivity|]); cbv beta;
        (eapply bind_Some; [reflexivity|]); cbv beta;
        apply Hu; now destruct w.
  - intros Hs. unfold onFontLoaded. cbv zeta.
    do 3 (eapply bind_Some; [reflexivity|]; cbv beta).
    apply bind_None. unfold Scene_add. apply bind_None. unfold defined.
    destruct w. cbn in *. now rewrite Hs.
Qed.

Lemma handlers_throw_without_main_witness :
  childSphere1 boot = None /\ camera boot = None /\ scene boot = None /\
  onKeyDown "ArrowLeft" boot = None /\ updateCamera boot = None /\
  onWindowResize 800 600 boot = None /\ onFontLoaded boot = None.
Proof.
  destruct (handlers_throw_without_main boot 800 600) as (H1 & H2 & H3).
  split; [reflexivity|]. split; [reflexivity|]. split; [reflexivity|].
  split; [exact (proj1 (proj2 (H1 eq_refl)))|].
  split; [exact (proj1 (H2 eq_refl))|].
  split; [exact (proj1 (proj2 (H2 eq_refl)))|exact (H3 eq_refl)].
Defined.

(** X4.  A key that [onKeyDown] has no case for changes nothing, in any
    state at all, also before [main]; key names are case sensitive. *)
Theorem unbound_keys_do_nothing (key : string) (w : World) :
  key ∉ boundKeys -> onKeyDown key w = Some (tt, w).
Proof. intros Hk. now apply onKeyDown_other. Qed.

Lemma unbound_keys_do_nothing_witness :
  ("arrowleft" ∉ boundKeys) /\ onKeyDown "arrowleft" boot = Some (tt, boot).
Proof.
  assert (H : "arrowleft" ∉ boundKeys).
  { unfold boundKeys. repeat (apply not_elem_of_cons; split; [discriminate|]).
    apply not_elem_of_nil. }
  split; [exact H|exact (unbound_keys_do_nothing "arrowleft" boot H)].
Defined.


(** X5.  The camera is never out of step with the variables: in every
    state of the page its field of view and planes are the values of
    [fov], [near] and [far], within their bounds, its projection matrix is
    the one for its current parameters, and the helper depicts that
    matrix. *)
Theorem camera_in_sync (innerWidth innerHeight : R) (w : World) :
  reachable innerWidth innerHeight w ->
  exists cam,
    camera w = Some cam /\
    cam_fov cam = fov w /\ cam_near cam = near w /\ cam_far cam = far w /\
    10 <= cam_fov cam <= 120 /\ 0.1 <= cam_near cam <= 10 /\
    10 <= cam_far cam <= 100 /\
    projectionMatrix cam =
      mkFrustum (cam_fov cam) (cam_aspect cam) (cam_near cam) (cam_far cam) /\
    geometryOf cameraHelper w = Some (CameraHelperGeometry (projectionMatrix cam)).
Proof.
  intros Hr. pose proof (reachable_WF _ _ w Hr) as Hw.
  exists (PerspectiveCamera (fov w) (aspectOf w) (near w) (far w)).
  split; [exact (wf_camera w Hw)|].
  do 3 (split; [reflexivity|]).
  split; [exact (wf_fov w Hw)|]. split; [exact (wf_near w Hw)|].
  split; [exact (wf_far w Hw)|]. split; [reflexivity|].
  exact (geometryOf_Some _ w _ _ (wf_cameraHelper w Hw) (wf_helper w Hw)).
Qed.

Lemma camera_in_sync_witness :
  reachable 800 600 (mainWorld 800 600) /\
  exists cam, camera (mainWorld 800 600) = Some cam /\ cam_fov cam = 75.
Proof.
  split; [apply reachable_mainWorld|].
  destruct (camera_in_sync 800 600 _ (reachable_mainWorld 800 600))
    as (cam & Hc & Hf & _).
  exists cam. split; [exact Hc|]. rewrite Hf. reflexivity.
Defined.

(** ** The parameters move on a grid *)

Lemma onGrid_down (step : R) (lo hi : Z) (v : R) :
  0 < step -> (lo <= hi)%Z -> onGrid step lo hi v ->
  onGrid step lo hi (Rmax (IZR lo * step) (v - step)).
Proof.
  intros Hs Hlh (k & Hk & ->).
  destruct (Z.eq_dec k lo) as [->|Hne].
  - exists lo. split; [lia|]. unfold Rmax. destruct (Rle_dec _ _); lra.
  - exists (k - 1)%Z. split; [lia|]. rewrite minus_IZR.
    assert (IZR lo <= IZR k - 1) by (rewrite <- minus_IZR; apply IZR_le; lia).
    unfold Rmax. destruct (Rle_dec _ _); nra.
Qed.

Lemma onGrid_up (step : R) (lo hi : Z) (v : R) :
  0 < step -> (lo <= hi)%Z -> onGrid step lo hi v ->
  onGrid step lo hi (Rmin (IZR hi * step) (v + step)).
Proof.
  intros Hs Hlh (k & Hk & ->).
  destruct (Z.eq_dec k hi) as [->|Hne].
  - exists hi. split; [lia|]. unfold Rmin. destruct (Rle_dec _ _); lra.
  - exists (k + 1)%Z. split; [lia|]. rewrite plus_IZR.
    assert (IZR k + 1 <= IZR hi) by (rewrite <- plus_IZR; apply IZR_le; lia).
    unfold Rmin. destruct (Rle_dec _ _); nra.
Qed.

Lemma reachable_on_grid (innerWidth innerHeight : R) (w : World) :
  reachable innerWidth innerHeight w ->
  onGrid (PI / 36) 0 36 (angleBetweenChildren w) /\
  onGrid 5 2 24 (fov w) /\ onGrid 0.1 1 100 (near w) /\ onGrid 5 2 20 (far w).
Proof.
  induction 1 as [c w Hmain|w e w' Hr IH Hs].
  - apply main_inv in Hmain as ->.
    change (angleBetweenChildren (mainWorld innerWidth innerHeight)) with (PI / 4).
    change (fov (mainWorld innerWidth innerHeight)) with 75.
    change (near (mainWorld innerWidth innerHeight)) with 0.1.
    change (far (mainWorld innerWidth innerHeight)) with 50.
    split; [exists 9%Z; split; [lia|lra]|].
    split; [exists 15%Z; split; [lia|lra]|].
    split; [exists 1%Z; split; [lia|lra]|exists 10%Z; split; [lia|lra]].
  - destruct IH as (Ga & Gf & Gn & Gfa). pose proof step_positive as Hstep.
    destruct (dispatch_params w w' e (reachable_WF _ _ w Hr) Hs)
      as (Ha & Hf & Hn & Hfa).
    rewrite Ha, Hf, Hn, Hfa. clear Ha Hf Hn Hfa.
    split; [|split; [|split]]; repeat case_decide; try assumption.
    + replace (Rmax 0) with (Rmax (IZR 0 * (PI / 36))) by (f_equal; lra).
      apply onGrid_down; [lra|lia|assumption].
    + replace (Rmin PI) with (Rmin (IZR 36 * (PI / 36))) by (f_equal; lra).
      apply onGrid_up; [lra|lia|assumption].
    + replace (Rmax 10) with (Rmax (IZR 2 * 5)) by (f_equal; lra).
      apply onGrid_down; [lra|lia|assumption].
    + replace (Rmin 120) with (Rmin (IZR 24 * 5)) by (f_equal; lra).
      apply onGrid_up; [lra|lia|assumption].
    + replace (Rmax 0.1) with (Rmax (IZR 1 * 0.1)) by (f_equal; lra).
      apply onGrid_down; [lra|lia|assumption].
    + replace (Rmin 10) with (Rmin (IZR 100 * 0.1)) by (f_equal; lra).
      apply onGrid_up; [lra|lia|assumption].
    + replace (Rmax 10) with (Rmax (IZR 2 * 5)) by (f_equal; lra).
      apply onGrid_down; [lra|lia|assumption].
    + replace (Rmin 100) with (Rmin (IZR 20 * 5)) by (f_equal; lra).
      apply onGrid_up; [lra|lia|assumption].
Qed.


(** X6.  Each parameter only ever takes finitely many values: the angle a
    whole number of steps of 5 degrees from 0 to 36, the field of view
    5 times 2..24, the near plane 0.1 times 1..100 and the far plane
    5 times 2..20. *)
Theorem parameters_on_grid (innerWidth innerHeight : R) (w : World) :
  reachable innerWidth innerHeight w ->
  onGrid (PI / 36) 0 36 (angleBetweenChildren w) /\
  onGrid 5 2 24 (fov w) /\ onGrid 0.1 1 100 (near w) /\ onGrid 5 2 20 (far w).
Proof. apply reachable_on_grid. Qed.

Lemma parameters_on_grid_witness :
  reachable 800 600 (mainWorld 800 600) /\ onGrid 5 2 24 (fov (mainWorld 800 600)).
Proof.
  split; [apply reachable_mainWorld|].
  apply (parameters_on_grid 800 600 (mainWorld 800 600)), reachable_mainWorld.
Defined.

(** X8.  Every key saturates at the bound it moves towards: at the bound
    the key is handled and its parameter stays where it is. *)
Theorem keys_saturate (innerWidth innerHeight : R) (w : World) :
  reachable innerWidth innerHeight w ->
  (angleBetweenChildren w = 0 ->
   exists w', onKeyDown "ArrowLeft" w = Some (tt, w') /\ angleBetweenChildren w' = 0) /\
  (angleBetweenChildren w = PI ->
   exists w', onKeyDown "ArrowRight" w = Some (tt, w') /\ angleBetweenChildren w' = PI) /\
  (fov w = 120 -> exists w', onKeyDown "F" w = Some (tt, w') /\ fov w' = 120) /\
  (near w = 0.1 -> exists w', onKeyDown "n" w = Some (tt, w') /\ near w' = 0.1) /\
  (near w = 10 -> exists w', onKeyDown "N" w = Some (tt, w') /\ near w' = 10) /\
  (far w = 10 -> exists w', onKeyDown "r" w = Some (tt, w') /\ far w' = 10) /\
  (far w = 100 -> exists w', onKeyDown "R" w = Some (tt, w') /\ far w' = 100).
Proof.
  intros Hr. pose proof (reachable_WF _ _ w Hr) as Hw.
  pose proof step_positive as Hs.
  assert (G : forall key, exists w', onKeyDown key w = Some (tt, w') /\
    angleBetweenChildren w' =
      (if decide (key = "ArrowLeft") then Rmax 0 (angleBetweenChildren w - PI / 36)
       else if decide (key = "ArrowRight")
            then Rmin PI (angleBetweenChildren w + PI / 36)
            else angleBetweenChildren w) /\
    fov w' = (if decide (key = "f") then Rmax 10 (fov w - 5)
              else if decide (key = "F") then Rmin 120 (fov w + 5) else fov w) /\
    near w' = (if decide (key = "n") then Rmax 0.1 (near w - 0.1)
               else if decide (key = "N") then Rmin 10 (near w + 0.1) else near w) /\
    far w' = (if decide (key = "r") then Rmax 10 (far w - 5)
              else if decide (key = "R") then Rmin 100 (far w + 5) else far w)).
  { intros key. destruct (WF_onKeyDown key w Hw) as (w' & Hk & _).
    exists w'. split; [exact Hk|]. exact (onKeyDown_params key w w' Hw Hk). }
  repeat split; intros Hb;
    match goal with
    | |- exists w', onKeyDown ?key w = _ /\ _ =>
        destruct (G key) as (w' & Hk & Ha & Hf & Hn & Hfa); keys;
        exists w'; split; [exact Hk|]
    end.
  - rewrite Ha, Hb. unfold Rmax. destruct (Rle_dec _ _); lra.
  - rewrite Ha, Hb. unfold Rmin. destruct (Rle_dec _ _); lra.
  - rewrite Hf, Hb. unfold Rmin. destruct (Rle_dec _ _); lra.
  - rewrite Hn, Hb. unfold Rmax. destruct (Rle_dec _ _); lra.
  - rewrite Hn, Hb. unfold Rmin. destruct (Rle_dec _ _); lra.
  - rewrite Hfa, Hb. unfold Rmax. destruct (Rle_dec _ _); lra.
  - rewrite Hfa, Hb. unfold Rmin. destruct (Rle_dec _ _); lra.
Qed.

Lemma keys_saturate_witness :
  reachable 800 600 (mainWorld 800 600) /\ near (mainWorld 800 600) = 0.1 /\
  exists w', onKeyDown "n" (mainWorld 800 600) = Some (tt, w') /\ near w' = 0.1.
Proof.
  split; [apply reachable_mainWorld|]. split; [reflexivity|].
  exact (proj1 (proj2 (proj2 (proj2
           (keys_saturate 800 600 _ (reachable_mainWorld 800 600))))) eq_refl).
Defined.


(** ** Holding a key down *)

Lemma press_down (key : string) (var : World -> R) (lo d : R) :
  0 <= d ->
  (forall w w', WF w -> onKeyDown key w = Some (tt, w') ->
                var w' = Rmax lo (var w - d)) ->
  forall n w, WF w -> lo <= var w ->
  exists w', press (repeat key n) w = Some (tt, w') /\ WF w' /\
             var w' = Rmax lo (var w - INR n * d).
Proof.
  intros Hd Hkey n w Hw Hlo.
  destruct (press_repeat key (fun k w' => var w' = Rmax lo (var w - INR k * d)))
    with (n := n) (w := w) as (w' & Hp & Hw' & Hv).
  - intros k v v' Hv Hk Hdown. rewrite (Hkey v v' Hv Hdown), Hk.
    now apply Rmax_iter.
  - exact Hw.
  - cbn [INR]. unfold Rmax. destruct (Rle_dec _ _); lra.
  - now exists w'.
Qed.

Lemma press_up (key : string) (var : World -> R) (hi d : R) :
  0 <= d ->
  (forall w w', WF w -> onKeyDown key w = Some (tt, w') ->
                var w' = Rmin hi (var w + d)) ->
  forall n w, WF w -> var w <= hi ->
  exists w', press (repeat key n) w = Some (tt, w') /\ WF w' /\
             var w' = Rmin hi (var w + INR n * d).
Proof.
  intros Hd Hkey n w Hw Hhi.
  destruct (press_repeat key (fun k w' => var w' = Rmin hi (var w + INR k * d)))
    with (n := n) (w := w) as (w' & Hp & Hw' & Hv).
  - intros k v v' Hv Hk Hup. rewrite (Hkey v v' Hv Hup), Hk.
    now apply Rmin_iter.
  - exact Hw.
  - cbn [INR]. unfold Rmin. destruct (Rle_dec _ _); lra.
  - now exists w'.
Qed.

(** What one press of a key does to the parameter of that key. *)
Ltac one_press :=
  let v := fresh "v" in let v' := fresh "v'" in
  let Hv := fresh "Hv" in let Hk := fresh "Hk" in
  intros v v' Hv Hk;
  destruct (onKeyDown_params _ v v' Hv Hk) as (? & ? & ? & ?); keys; assumption.

(** X9.  Holding a key of the field of view or of the far plane: pressing
    it [n] times is one clamped move of [n] steps of 5, so the clamp in the
    middle of a run of presses never costs anything.  (Both parameters are
    whole multiples of 5, which add up without rounding.) *)
Theorem repeated_presses (innerWidth innerHeight : R) (w : World) (n : nat) :
  reachable innerWidth innerHeight w ->
  (exists w', press (repeat "f" n) w = Some (tt, w') /\
     fov w' = Rmax 10 (fov w - INR n * 5)) /\
  (exists w', press (repeat "F" n) w = Some (tt, w') /\
     fov w' = Rmin 120 (fov w + INR n * 5)) /\
  (exists w', press (repeat "r" n) w = Some (tt, w') /\
     far w' = Rmax 10 (far w - INR n * 5)) /\
  (exists w', press (repeat "R" n) w = Some (tt, w') /\
     far w' = Rmin 100 (far w + INR n * 5)).
Proof.
  intros Hr. pose proof (reachable_WF _ _ w Hr) as Hw.
  pose proof (wf_fov w Hw). pose proof (wf_far w Hw).
  repeat split.
  - destruct (press_down "f" fov 10 5)
      with (n := n) (w := w) as (w' & Hp & _ & Hv);
      [lra|one_press|exact Hw|lra|now exists w'].
  - destruct (press_up "F" fov 120 5)
      with (n := n) (w := w) as (w' & Hp & _ & Hv);
      [lra|one_press|exact Hw|lra|now exists w'].
  - destruct (press_down "r" far 10 5)
      with (n := n) (w := w) as (w' & Hp & _ & Hv);
      [lra|one_press|exact Hw|lra|now exists w'].
  - destruct (press_up "R" far 100 5)
      with (n := n) (w := w) as (w' & Hp & _ & Hv);
      [lra|one_press|exact Hw|lra|now exists w'].
Qed.

Lemma repeated_presses_witness :
  reachable 800 600 (mainWorld 800 600) /\
  exists w', press (repeat "R" 3) (mainWorld 800 600) = Some (tt, w') /\ far w' = 65.
Proof.
  split; [apply reachable_mainWorld|].
  destruct (repeated_presses 800 600 _ 3 (reachable_mainWorld 800 600))
    as (_ & _ & _ & w' & Hp & Hf).
  exists w'. split; [exact Hp|]. rewrite Hf.
  change (far (mainWorld 800 600)) with 50. cbn [INR].
  unfold Rmin. destruct (Rle_dec _ _); lra.
Defined.

(** ** What a key leaves alone *)

Lemma reframed_frame (w : World) :
  scene (reframed w) = scene w /\ edge1 (reframed w) = edge1 w /\
  edge2 (reframed w) = edge2 w /\ mainSphere (reframed w) = mainSphere w /\
  childSphere1 (reframed w) = childSphere1 w /\
  childSphere2 (reframed w) = childSphere2 w /\
  cameraHelper (reframed w) = cameraHelper w /\
  next (reframed w) = next w /\ renderer (reframed w) = renderer w /\
  createEdgeCalls (reframed w) = createEdgeCalls w /\
  angleBetweenChildren (reframed w) = angleBetweenChildren w /\
  aspectOf (reframed w) = aspectOf w /\
  (forall h, h <> 7%nat -> heap (reframed w) !! h = heap w !! h).
Proof.
  destruct w as [hp nx rd sc cm ms cs1 cs2 oe1 oe2 ch fv nr fr an calls].
  do 12 (split; [reflexivity|]). intros h Hh.
  cbn [reframed heap set_heap set_camera]. now rewrite lookup_insert_ne.
Qed.

(** X10.  The six camera keys touch the camera and its helper only: the
    scene, the spheres, the edges, the angle, the aspect ratio and the size
    of the renderer stay, no object is created, and every object but the
    helper is as before. *)
Theorem camera_keys_frame (innerWidth innerHeight : R) (w : World) (key : string) :
  reachable innerWidth innerHeight w ->
  key ∈ ["f"; "F"; "n"; "N"; "r"; "R"] ->
  exists w', onKeyDown key w = Some (tt, w') /\
    scene w' = scene w /\ edge1 w' = edge1 w /\ edge2 w' = edge2 w /\
    mainSphere w' = mainSphere w /\ childSphere1 w' = childSphere1 w /\
    childSphere2 w' = childSphere2 w /\ cameraHelper w' = cameraHelper w /\
    next w' = next w /\ renderer w' = renderer w /\
    createEdgeCalls w' = createEdgeCalls w /\
    angleBetweenChildren w' = angleBetweenChildren w /\
    aspectOf w' = aspectOf w /\
    (forall h, cameraHelper w <> Some h -> heap w' !! h = heap w !! h).
Proof.
  intros Hr Hkey. pose proof (reachable_WF _ _ w Hr) as Hw.
  pose proof (wf_cameraHelper w Hw) as Hch.
  assert (G : forall w0,
             (exists v, w0 = set_fov v w \/ w0 = set_near v w \/ w0 = set_far v w) ->
             scene (reframed w0) = scene w /\ edge1 (reframed w0) = edge1 w /\
             edge2 (reframed w0) = edge2 w /\ mainSphere (reframed w0) = mainSphere w /\
             childSphere1 (reframed w0) = childSphere1 w /\
             childSphere2 (reframed w0) = childSphere2 w /\
             cameraHelper (reframed w0) = cameraHelper w /\
             next (reframed w0) = next w /\ renderer (reframed w0) = renderer w /\
             createEdgeCalls (reframed w0) = createEdgeCalls w /\
             angleBetweenChildren (reframed w0) = angleBetweenChildren w /\
             aspectOf (reframed w0) = aspectOf w /\
             (forall h, cameraHelper w <> Some h -> heap (reframed w0) !! h = heap w !! h)).
  { intros w0 (v & Hw0).
    destruct (reframed_frame w0) as (F1 & F2 & F3 & F4 & F5 & F6 & F7 & F8 & F9
                                     & F10 & F11 & F12 & F13).
    assert (E : scene w0 = scene w /\ edge1 w0 = edge1 w /\ edge2 w0 = edge2 w /\
                mainSphere w0 = mainSphere w /\ childSphere1 w0 = childSphere1 w /\
                childSphere2 w0 = childSphere2 w /\ cameraHelper w0 = cameraHelper w /\
                next w0 = next w /\ renderer w0 = renderer w /\
                createEdgeCalls w0 = createEdgeCalls w /\
                angleBetweenChildren w0 = angleBetweenChildren w /\
                aspectOf w0 = aspectOf w /\ heap w0 = heap w)
      by (destruct Hw0 as [->|[->| ->]]; now destruct w).
    destruct E as (E1 & E2 & E3 & E4 & E5 & E6 & E7 & E8 & E9 & E10 & E11 & E12 & E13).
    rewrite F1, F2, F3, F4, F5, F6, F7, F8, F9, F10, F11, F12.
    do 12 (split; [assumption|]). intros h Hh. rewrite F13, E13; [reflexivity|].
    intros ->. now apply Hh. }
  rewrite !elem_of_cons, elem_of_nil in Hkey.
  destruct Hkey as [->|[->|[->|[->|[->|[->|[]]]]]]].
  - eexists. split; [exact (onKeyDown_f w Hw)|]. apply G. eexists. now left.
  - eexists. split; [exact (onKeyDown_F w Hw)|]. apply G. eexists. now left.
  - eexists. split; [exact (onKeyDown_n w Hw)|]. apply G. eexists. right. now left.
  - eexists. split; [exact (onKeyDown_N w Hw)|]. apply G. eexists. right. now left.
  - eexists. split; [exact (onKeyDown_r w Hw)|]. apply G. eexists. right. now right.
  - eexists. split; [exact (onKeyDown_R w Hw)|]. apply G. eexists. right. now right.
Qed.

Lemma camera_keys_frame_witness :
  reachable 800 600 (mainWorld 800 600) /\ ("r" ∈ ["f"; "F"; "n"; "N"; "r"; "R"]) /\
  exists w', onKeyDown "r" (mainWorld 800 600) = Some (tt, w') /\
             scene w' = scene (mainWorld 800 600).
Proof.
  assert (Hin : "r" ∈ ["f"; "F"; "n"; "N"; "r"; "R"]).
  { rewrite !elem_of_cons. do 4 right. now left. }
  split; [apply reachable_mainWorld|]. split; [exact Hin|].
  destruct (camera_keys_frame 800 600 _ "r" (reachable_mainWorld 800 600) Hin)
    as (w' & Hk & Hs & _).
  now exists w'.
Defined.


(** * Further properties of the scene *)

Lemma length_remove_first (h : handle) (l : list handle) :
  In h l -> S (length (remove_first h l)) = length l.
Proof.
  induction l as [|a l IH]; [intros []|].
  intros Hin. cbn [remove_first]. case_decide as E; [reflexivity|].
  destruct Hin as [->|Hin]; [congruence|]. cbn [length]. now rewrite IH.
Qed.

Lemma In_remove_first_ne (h x : handle) (l : list handle) :
  In h l -> h <> x -> In h (remove_first x l).
Proof.
  induction l as [|a l IH]; [intros []|].
  intros Hin Hne. cbn [remove_first]. case_decide as E.
  - destruct Hin as [->|Hin]; [congruence|exact Hin].
  - destruct Hin as [->|Hin]; [now left|right; now apply IH].
Qed.

Lemma In_remove_first (h x : handle) (l : list handle) :
  In h (remove_first x l) -> In h l.
Proof.
  induction l as [|a l IH]; [intros []|].
  cbn [remove_first]. case_decide as E; [now right|].
  intros [->|Hin]; [now left|right; now apply IH].
Qed.

(** The two recorded edges are among the children, once each. *)
Lemma WF_edges_in_scene (w : World) (e1 e2 : handle) (l : list handle) :
  scene w = Some l -> List.filter (isEdge (heap w)) l = [e1; e2] -> e1 <> e2 ->
  In e1 l /\ In e2 (remove_first e1 l) /\
  length (remove_first e2 (remove_first e1 l) ++ [next w; S (next w)]) = length l.
Proof.
  intros Hl Hf Hne.
  assert (H1 : In e1 l) by (apply (List.filter_In (isEdge (heap w))); rewrite Hf; now left).
  assert (H2 : In e2 l)
    by (apply (List.filter_In (isEdge (heap w))); rewrite Hf; right; now left).
  assert (H2' : In e2 (remove_first e1 l)) by (apply In_remove_first_ne; congruence).
  split; [exact H1|]. split; [exact H2'|].
  rewrite length_app. cbn [length].
  pose proof (length_remove_first e1 l H1).
  pose proof (length_remove_first e2 _ H2'). lia.
Qed.

(** X11.  An arrow key touches the two children and the edges only, and it
    does so even when the angle is already at its bound: two new edge
    objects are created on every press, the scene keeps its number of
    children, and every object that existed before, the two replaced edges
    included, is still in the heap as it was (nothing is disposed of). *)
Theorem arrow_keys_frame (innerWidth innerHeight : R) (w : World) (key : string) :
  reachable innerWidth innerHeight w ->
  key ∈ ["ArrowLeft"; "ArrowRight"] ->
  exists w', onKeyDown key w = Some (tt, w') /\
    camera w' = camera w /\ renderer w' = renderer w /\
    fov w' = fov w /\ near w' = near w /\ far w' = far w /\
    mainSphere w' = mainSphere w /\ childSphere1 w' = childSphere1 w /\
    childSphere2 w' = childSphere2 w /\ cameraHelper w' = cameraHelper w /\
    edge1 w' = Some (next w) /\ edge2 w' = Some (S (next w)) /\
    next w' = S (S (next w)) /\
    length (childrenOf w') = length (childrenOf w) /\
    length (createEdgeCalls w') = S (S (length (createEdgeCalls w))) /\
    (forall h, (h < next w)%nat ->
               childSphere1 w <> Some h -> childSphere2 w <> Some h ->
               heap w' !! h = heap w !! h).
Proof.
  intros Hr Hkey. pose proof (reachable_WF _ _ w Hr) as Hw.
  assert (G : forall a, let w' := rebuilt (set_angleBetweenChildren a w) in
    camera w' = camera w /\ renderer w' = renderer w /\
    fov w' = fov w /\ near w' = near w /\ far w' = far w /\
    mainSphere w' = mainSphere w /\ childSphere1 w' = childSphere1 w /\
    childSphere2 w' = childSphere2 w /\ cameraHelper w' = cameraHelper w /\
    edge1 w' = Some (next w) /\ edge2 w' = Some (S (next w)) /\
    next w' = S (S (next w)) /\
    length (childrenOf w') = length (childrenOf w) /\
    length (createEdgeCalls w') = S (S (length (createEdgeCalls w))) /\
    (forall h, (h < next w)%nat ->
               childSphere1 w <> Some h -> childSphere2 w <> Some h ->
               heap w' !! h = heap w !! h)).
  { intros a.
    destruct (wf_edges w Hw)
      as (e1 & e2 & l & He1 & He2 & He12 & _ & _ & _ & _ & _ & _ & Hl & _ & Hf).
    destruct (WF_edges_in_scene w e1 e2 l Hl Hf He12) as (_ & _ & Hlen).
    pose proof (wf_childSphere1 w Hw) as Hc1.
    pose proof (wf_childSphere2 w Hw) as Hc2.
    destruct w as [hp nx rd sc cm ms cs1 cs2 oe1 oe2 ch fv nr fr an calls].
    cbn in He1, He2, Hl, Hlen, Hc1, Hc2. subst. cbv zeta.
    do 12 (split; [reflexivity|]).
    split; [exact Hlen|]. split; [reflexivity|].
    intros h Hh N1 N2. cbn in Hh, N1, N2.
    cbn [heap rebuilt set_angleBetweenChildren next angleBetweenChildren].
    rewrite !lookup_insert_ne; try reflexivity; try lia; congruence. }
  rewrite !elem_of_cons, elem_of_nil in Hkey. destruct Hkey as [->|[->|[]]].
  - eexists. split; [exact (onKeyDown_ArrowLeft w Hw)|]. apply G.
  - eexists. split; [exact (onKeyDown_ArrowRight w Hw)|]. apply G.
Qed.

Lemma arrow_keys_frame_witness :
  reachable 800 600 (mainWorld 800 600) /\
  ("ArrowLeft" ∈ ["ArrowLeft"; "ArrowRight"]) /\
  exists w', onKeyDown "ArrowLeft" (mainWorld 800 600) = Some (tt, w') /\
             next w' = 10%nat /\ length (childrenOf w') = 8%nat.
Proof.
  assert (Hin : "ArrowLeft" ∈ ["ArrowLeft"; "ArrowRight"])
    by (rewrite !elem_of_cons; now left).
  split; [apply reachable_mainWorld|]. split; [exact Hin|].
  destruct (arrow_keys_frame 800 600 _ "ArrowLeft" (reachable_mainWorld 800 600) Hin)
    as (w' & Hk & _ & _ & _ & _ & _ & _ & _ & _ & _ & _ & _ & Hn & Hl & _).
  exists w'. split; [exact Hk|]. split; [exact Hn|]. rewrite Hl. reflexivity.
Defined.

(** X12.  The edges on display are never stale: in every state of the page
    the two recorded edges are in the scene and are the meshes that
    [createEdge] builds from the present positions of the root and of the
    child; each is a cylinder of radius 0.05 and length [3 * sqrt 2],
    centred half way to the child, with its long axis pointing from the
    root to the child. *)
Theorem edges_are_current (innerWidth innerHeight : R) (w : World) :
  reachable innerWidth innerHeight w ->
  exists e1 e2 root p1 p2,
    edge1 w = Some e1 /\ edge2 w = Some e2 /\
    In e1 (childrenOf w) /\ In e2 (childrenOf w) /\
    positionOf mainSphere w = Some root /\
    positionOf childSphere1 w = Some p1 /\ positionOf childSphere2 w = Some p2 /\
    heap w !! e1 = Some (edgeMesh root p1) /\
    heap w !! e2 = Some (edgeMesh root p2) /\
    Forall (fun p =>
              geometry (edgeMesh root p) =
                CylinderGeometry 0.05 0.05 (3 * sqrt 2) 8 1 /\
              position (edgeMesh root p) = V3.multiplyScalar p 0.5 /\
              longAxis (edgeMesh root p) = V3.normalize (V3.subVectors p root) /\
              V3.sameDirection (longAxis (edgeMesh root p)) (V3.subVectors p root))
           [p1; p2].
Proof.
  intros Hr. pose proof (reachable_WF _ _ w Hr) as Hw.
  destruct (wf_edges w Hw)
    as (e1 & e2 & l & He1 & He2 & He12 & _ & _ & _ & _ & Hh1 & Hh2 & Hl & _ & Hf).
  destruct (WF_positions w Hw) as (Pm & P1 & P2).
  destruct (WF_edges_in_scene w e1 e2 l Hl Hf He12) as (I1 & I2 & _).
  exists e1, e2, V3.zero, (childPosition1 (angleBetweenChildren w)),
         (childPosition2 (angleBetweenChildren w)).
  unfold childrenOf. rewrite Hl. cbn [default].
  split; [exact He1|]. split; [exact He2|]. split; [exact I1|].
  split; [exact (In_remove_first _ _ _ I2)|].
  split; [exact Pm|]. split; [exact P1|]. split; [exact P2|].
  split; [exact Hh1|]. split; [exact Hh2|].
  destruct (child_distance (angleBetweenChildren w)) as [D1 D2].
  destruct (child_not_below (angleBetweenChildren w)) as [N1 N2].
  assert (G : forall p, V3.length (V3.subVectors p V3.zero) = 3 * sqrt 2 ->
              (V3.x p <> V3.x V3.zero \/ V3.z p <> V3.z V3.zero) ->
              geometry (edgeMesh V3.zero p) =
                CylinderGeometry 0.05 0.05 (3 * sqrt 2) 8 1 /\
              position (edgeMesh V3.zero p) = V3.multiplyScalar p 0.5 /\
              longAxis (edgeMesh V3.zero p) = V3.normalize (V3.subVectors p V3.zero) /\
              V3.sameDirection (longAxis (edgeMesh V3.zero p)) (V3.subVectors p V3.zero)).
  { intros p Hlen Hxz. split; [|split; [|split]].
    - cbn [edgeMesh geometry Object3D_rotateX Object3D_lookAt set_position Mesh].
      now rewrite Hlen.
    - cbn [edgeMesh position Object3D_rotateX Object3D_lookAt set_position Mesh].
      apply V3_eq; cbn; lra.
    - now apply edgeMesh_axis.
    - rewrite edgeMesh_axis by exact Hxz. apply sameDirection_normalize.
      intros E. rewrite E in Hlen. unfold V3.length, V3.lengthSq in Hlen.
      cbn in Hlen. replace (_ + _ + _) with 0 in Hlen by lra.
      rewrite sqrt_0 in Hlen. pose proof sqrt2_positive. lra. }
  repeat constructor; now apply G.
Qed.

Lemma edges_are_current_witness :
  reachable 800 600 (mainWorld 800 600) /\
  exists e1 root p1,
    edge1 (mainWorld 800 600) = Some e1 /\
    positionOf mainSphere (mainWorld 800 600) = Some root /\
    positionOf childSphere1 (mainWorld 800 600) = Some p1 /\
    heap (mainWorld 800 600) !! e1 = Some (edgeMesh root p1).
Proof.
  split; [apply reachable_mainWorld|].
  destruct (edges_are_current 800 600 _ (reachable_mainWorld 800 600))
    as (e1 & e2 & root & p1 & p2 & H1 & _ & _ & _ & H2 & H3 & _ & H4 & _).
  now exists e1, root, p1.
Defined.


(** Where an event leads, as a function of the state it starts from. *)
Lemma dispatch_cases (e : Event) (w w' : World) :
  WF w -> dispatch e w = Some (tt, w') ->
  (exists a, w' = rebuilt (set_angleBetweenChildren a w)) \/
  (exists v, w' = reframed (set_fov v w) \/ w' = reframed (set_near v w) \/
             w' = reframed (set_far v w)) \/
  (exists iw ih, w' = resized iw ih w) \/
  w' = labelled w \/ w' = w.
Proof.
  intros Hw Hd. destruct e as [key|iw ih| |]; cbn [dispatch] in Hd.
  - destruct (decide (key = "ArrowLeft")) as [->|N1].
    { rewrite (onKeyDown_ArrowLeft w Hw) in Hd. injection Hd as <-. left. eauto. }
    destruct (decide (key = "ArrowRight")) as [->|N2].
    { rewrite (onKeyDown_ArrowRight w Hw) in Hd. injection Hd as <-. left. eauto. }
    destruct (decide (key = "f")) as [->|N3].
    { rewrite (onKeyDown_f w Hw) in Hd. injection Hd as <-. right; left. eauto. }
    destruct (decide (key = "F")) as [->|N4].
    { rewrite (onKeyDown_F w Hw) in Hd. injection Hd as <-. right; left. eauto. }
    destruct (decide (key = "n")) as [->|N5].
    { rewrite (onKeyDown_n w Hw) in Hd. injection Hd as <-. right; left. eauto. }
    destruct (decide (key = "N")) as [->|N6].
    { rewrite (onKeyDown_N w Hw) in Hd. injection Hd as <-. right; left. eauto. }
    destruct (decide (key = "r")) as [->|N7].
    { rewrite (onKeyDown_r w Hw) in Hd. injection Hd as <-. right; left. eauto. }
    destruct (decide (key = "R")) as [->|N8].
    { rewrite (onKeyDown_R w Hw) in Hd. injection Hd as <-. right; left. eauto. }
    rewrite onKeyDown_other in Hd
      by (repeat (apply not_elem_of_cons; split; [assumption|]); apply not_elem_of_nil).
    injection Hd as <-. now do 4 right.
  - rewrite (onWindowResize_resized iw ih w Hw) in Hd. injection Hd as <-.
    do 2 right; left. eauto.
  - rewrite (onFontLoaded_labelled w Hw) in Hd. injection Hd as <-.
    do 3 right. now left.
  - unfold render, mret, M_ret in Hd. injection Hd as <-. now do 4 right.
Qed.

Lemma NoDup_remove_first (h : handle) (l : list handle) :
  List.NoDup l -> List.NoDup (remove_first h l).
Proof.
  induction 1 as [|a l Ha Hl IH]; cbn [remove_first]; [constructor|].
  case_decide; [assumption|]. constructor; [|assumption].
  intros Hin. apply Ha. now apply In_remove_first with h.
Qed.

Lemma NoDup_app_fresh (n : handle) (l l' : list handle) :
  List.NoDup l -> List.NoDup l' -> Forall (fun h => (h < n)%nat) l ->
  Forall (fun h => (n <= h)%nat) l' -> List.NoDup (l ++ l').
Proof.
  intros Hl Hl' Hlt Hge. induction Hl as [|a l Ha _ IH]; [exact Hl'|].
  cbn [app]. inversion Hlt as [|? ? Hlt1 Hlt2]; subst. constructor; [|now apply IH].
  rewrite in_app_iff. intros [Hin|Hin]; [contradiction|].
  rewrite Forall_forall in Hge. apply list_elem_of_In in Hin.
  specialize (Hge a Hin). cbn beta in Hge. lia.
Qed.

Lemma insert_keeps_live (hp : gmap handle Object3D) (k h : handle) (o : Object3D) :
  is_Some (hp !! h) -> is_Some (<[k := o]> hp !! h).
Proof.
  intros Hh. destruct (decide (k = h)) as [->|Hne].
  - rewrite lookup_insert_eq. now eexists.
  - now rewrite lookup_insert_ne.
Qed.

Lemma live_weaken (hp hp' : gmap handle Object3D) (l : list handle) :
  (forall h, is_Some (hp !! h) -> is_Some (hp' !! h)) ->
  Forall (fun h => is_Some (hp !! h)) l -> Forall (fun h => is_Some (hp' !! h)) l.
Proof. intros H Hl. eapply Forall_impl; [exact Hl|exact H]. Qed.

(** The shape of the children in the states of the page. *)
Lemma reachable_children (innerWidth innerHeight : R) (w : World) :
  reachable innerWidth innerHeight w ->
  List.NoDup (childrenOf w) /\
  Forall (fun h => is_Some (heap w !! h)) (childrenOf w) /\
  In 0%nat (childrenOf w) /\ In 1%nat (childrenOf w) /\
  In 2%nat (childrenOf w) /\ In 7%nat (childrenOf w).
Proof.
  induction 1 as [c w Hmain|w e w' Hr IH Hs].
  - apply main_inv in Hmain as ->.
    unfold childrenOf, mainWorld. cbv zeta. cbn [scene default heap].
    split; [|split].
    + repeat (constructor; [cbn; lia|]). constructor.
    + repeat (constructor; [lookups; now eexists|]). constructor.
    + cbn. tauto.
  - pose proof (reachable_WF _ _ w Hr) as Hw.
    destruct IH as (Hnd & Hlive & I0 & I1 & I2 & I7).
    destruct (wf_edges w Hw)
      as (e1 & e2 & l & He1 & He2 & He12 & He1n & He2n & He17 & He27 & _ & _ & Hl
          & Hfresh & Hf).
    unfold childrenOf in *. rewrite Hl in *. cbn [default] in *.
    destruct (dispatch_cases e w w' Hw Hs)
      as [(a & ->)|[(v & [->|[->| ->]])|[(iw & ih & ->)|[->| ->]]]].
    + destruct w as [hp nx rd sc cm ms cs1 cs2 oe1 oe2 ch fv nr fr an calls].
      cbn in He1, He2, Hl, Hfresh, He1n, He2n, Hlive. subst.
      cbn [rebuilt scene set_angleBetweenChildren edge1 edge2 next heap
           angleBetweenChildren default without].
      assert (Hl2 : Forall (fun h => (h < nx)%nat) (remove_first e2 (remove_first e1 l)))
        by now do 2 apply remove_first_Forall.
      split; [|split].
      * apply (NoDup_app_fresh nx); [now do 2 apply NoDup_remove_first| |exact Hl2|].
        -- repeat constructor; cbn; [lia|tauto].
        -- repeat constructor; lia.
      * apply Forall_app. split.
        -- do 2 apply remove_first_Forall. eapply live_weaken; [|exact Hlive].
           intros h Hh. now do 4 apply insert_keeps_live.
        -- repeat constructor; lookups; now eexists.
      * repeat split; apply in_or_app; left;
          (apply In_remove_first_ne; [apply In_remove_first_ne|]); (assumption || lia).
    + destruct w as [hp nx rd sc cm ms cs1 cs2 oe1 oe2 ch fv nr fr an calls].
      cbn in Hl, Hlive. subst. cbn [reframed scene set_heap set_camera set_fov heap default].
      split; [exact Hnd|]. split; [|tauto].
      eapply live_weaken; [|exact Hlive]. intros h Hh. now apply insert_keeps_live.
    + destruct w as [hp nx rd sc cm ms cs1 cs2 oe1 oe2 ch fv nr fr an calls].
      cbn in Hl, Hlive. subst. cbn [reframed scene set_heap set_camera set_near heap default].
      split; [exact Hnd|]. split; [|tauto].
      eapply live_weaken; [|exact Hlive]. intros h Hh. now apply insert_keeps_live.
    + destruct w as [hp nx rd sc cm ms cs1 cs2 oe1 oe2 ch fv nr fr an calls].
      cbn in Hl, Hlive. subst. cbn [reframed scene set_heap set_camera set_far heap default].
      split; [exact Hnd|]. split; [|tauto].
      eapply live_weaken; [|exact Hlive]. intros h Hh. now apply insert_keeps_live.
    + destruct w as [hp nx rd sc cm ms cs1 cs2 oe1 oe2 ch fv nr fr an calls].
      cbn in Hl, Hlive. subst.
      cbn [resized scene set_heap set_camera set_renderer heap default].
      split; [exact Hnd|]. split; [|tauto].
      eapply live_weaken; [|exact Hlive]. intros h Hh. now apply insert_keeps_live.
    + destruct w as [hp nx rd sc cm ms cs1 cs2 oe1 oe2 ch fv nr fr an calls].
      cbn in Hl, Hlive, Hfresh. subst.
      cbn [labelled scene set_heap set_scene set_next heap next default].
      split; [|split].
      * apply (NoDup_app_fresh nx); [exact Hnd| |exact Hfresh|].
        -- repeat constructor; cbn; [lia|lia|tauto].
        -- repeat constructor; lia.
      * apply Forall_app. split.
        -- eapply live_weaken; [|exact Hlive].
           intros h Hh. now do 3 apply insert_keeps_live.
        -- repeat constructor; lookups; now eexists.
      * repeat split; apply in_or_app; now left.
    + rewrite Hl. cbn [default]. tauto.
Qed.

(** X13.  The scene is sound in every state of the page: no object is a
    child twice, every child is an object of the heap, and the variables
    [mainSphere], [childSphere1], [childSphere2], [cameraHelper], [edge1]
    and [edge2] all hold children of the scene. *)
Theorem scene_is_sound (innerWidth innerHeight : R) (w : World) :
  reachable innerWidth innerHeight w -> sceneSound w.
Proof.
  intros Hr. pose proof (reachable_WF _ _ w Hr) as Hw.
  destruct (reachable_children _ _ w Hr) as (Hnd & Hlive & I0 & I1 & I2 & I7).
  destruct (wf_edges w Hw)
    as (e1 & e2 & l & He1 & He2 & He12 & _ & _ & _ & _ & _ & _ & Hl & _ & Hf).
  destruct (WF_edges_in_scene w e1 e2 l Hl Hf He12) as (J1 & J2 & _).
  split; [exact Hnd|]. split; [exact Hlive|].
  repeat constructor.
  - exists 0%nat. split; [exact (wf_mainSphere w Hw)|exact I0].
  - exists 1%nat. split; [exact (wf_childSphere1 w Hw)|exact I1].
  - exists 2%nat. split; [exact (wf_childSphere2 w Hw)|exact I2].
  - exists 7%nat. split; [exact (wf_cameraHelper w Hw)|exact I7].
  - exists e1. split; [exact He1|]. unfold childrenOf. now rewrite Hl.
  - exists e2. split; [exact He2|]. unfold childrenOf. rewrite Hl.
    exact (In_remove_first _ _ _ J2).
Qed.

Lemma scene_is_sound_witness :
  reachable 800 600 (mainWorld 800 600) /\ sceneSound (mainWorld 800 600).
Proof.
  split; [apply reachable_mainWorld|].
  apply (scene_is_sound 800 600), reachable_mainWorld.
Defined.


(** X14.  When the font arrives, three new text meshes X, Y and Z are put
    at 5.5 on their axes and appended to the scene in that order; nothing
    else changes: not the objects that were there, not the edges on
    display, not the parameters or the camera. *)
Theorem font_callback (innerWidth innerHeight : R) (w : World) :
  reachable innerWidth innerHeight w ->
  exists w',
    onFontLoaded w = Some (tt, w') /\
    let n := next w in
    childrenOf w' = childrenOf w ++ [n; S n; S (S n)] /\
    next w' = S (S (S n)) /\
    heap w' !! n =
      Some (mkObject3D (TextGeometry "X" 0.5 0.1) 0xffffff (V3.mk 5.5 0 0) Rot.identity) /\
    heap w' !! S n =
      Some (mkObject3D (TextGeometry "Y" 0.5 0.1) 0xffffff (V3.mk 0 5.5 0) Rot.identity) /\
    heap w' !! S (S n) =
      Some (mkObject3D (TextGeometry "Z" 0.5 0.1) 0xffffff (V3.mk 0 0 5.5) Rot.identity) /\
    (forall h, (h < n)%nat -> heap w' !! h = heap w !! h) /\
    edgesInScene w' = edgesInScene w /\
    edge1 w' = edge1 w /\ edge2 w' = edge2 w /\
    camera w' = camera w /\ renderer w' = renderer w /\
    angleBetweenChildren w' = angleBetweenChildren w /\
    fov w' = fov w /\ near w' = near w /\ far w' = far w /\
    createEdgeCalls w' = createEdgeCalls w.
Proof.
  intros Hr. pose proof (reachable_WF _ _ w Hr) as Hw.
  exists (labelled w). split; [exact (onFontLoaded_labelled w Hw)|].
  destruct (WF_edgesInScene w Hw) as (e1 & e2 & _ & _ & _ & E).
  destruct (WF_edgesInScene _ (WF_labelled w Hw)) as (e1' & e2' & E1 & E2 & _ & E').
  assert (e1' = e1 /\ e2' = e2) as [-> ->].
  { destruct (WF_edgesInScene w Hw) as (a1 & a2 & A1 & A2 & _ & A).
    rewrite E in A. injection A as <- <-.
    replace (edge1 (labelled w)) with (edge1 w) in E1 by now destruct w.
    replace (edge2 (labelled w)) with (edge2 w) in E2 by now destruct w.
    split; congruence. }
  cbv zeta. split; [now destruct w|]. split; [now destruct w|].
  destruct w as [hp nx rd sc cm ms cs1 cs2 oe1 oe2 ch fv nr fr an calls].
  cbn [labelled heap next set_scene set_next set_heap].
  split; [lookups; reflexivity|]. split; [lookups; reflexivity|].
  split; [lookups; reflexivity|].
  split; [intros h Hh; lookups; reflexivity|].
  split; [now rewrite E', E|]. now repeat split.
Qed.

Lemma font_callback_witness :
  reachable 800 600 (mainWorld 800 600) /\
  exists w', onFontLoaded (mainWorld 800 600) = Some (tt, w') /\
             childrenOf w' = [0; 1; 2; 3; 4; 5; 6; 7; 8; 9; 10]%nat.
Proof.
  split; [apply reachable_mainWorld|].
  destruct (font_callback 800 600 _ (reachable_mainWorld 800 600))
    as (w' & Hf & Hc & _).
  exists w'. split; [exact Hf|]. rewrite Hc. reflexivity.
Defined.

(** ** How far apart the branches are *)

Lemma cos_halves (a : R) :
  cos a = cos (a / 2) * cos (a / 2) - sin (a / 2) * sin (a / 2).
Proof. replace a with (2 * (a / 2)) at 1 by lra. apply cos_2a. Qed.

(** X15.  What the angle variable measures.  Seen from above (the
    horizontal parts of the two branches), the branches have length 3 and
    enclose the angle [angleBetweenChildren]: their dot product is
    [9 * cos angle].  In space their dot product is [9 * (1 + cos angle)],
    which is never negative, so the branches are never more than a right
    angle apart; and the children are [6 * sin (angle / 2)] apart. *)
Theorem branch_angles (innerWidth innerHeight : R) (w : World) :
  reachable innerWidth innerHeight w ->
  exists p1 p2,
    positionOf childSphere1 w = Some p1 /\ positionOf childSphere2 w = Some p2 /\
    V3.length (V3More.horizontal p1) = 3 /\ V3.length (V3More.horizontal p2) = 3 /\
    V3More.dot (V3More.horizontal p1) (V3More.horizontal p2) =
      9 * cos (angleBetweenChildren w) /\
    V3More.dot p1 p2 = 9 * (1 + cos (angleBetweenChildren w)) /\
    0 <= V3More.dot p1 p2 /\
    V3.length (V3.subVectors p1 p2) = 6 * sin (angleBetweenChildren w / 2).
Proof.
  intros Hr. pose proof (reachable_WF _ _ w Hr) as Hw.
  destruct (WF_positions w Hw) as (_ & P1 & P2).
  pose proof (wf_angle w Hw) as Ha. set (a := angleBetweenChildren w) in *.
  exists (childPosition1 a), (childPosition2 a).
  split; [exact P1|]. split; [exact P2|].
  pose proof (sin2_cos2 (a / 2)) as Hsc. unfold Rsqr in Hsc.
  pose proof (cos_halves a) as Hcos.
  assert (Hsin : 0 <= sin (a / 2)) by (apply sin_ge_0; lra).
  assert (H3 : forall v, v = 9 -> sqrt v = 3).
  { intros v ->. replace 9 with (3 * 3) by lra. apply sqrt_square. lra. }
  unfold V3.length, V3.lengthSq, V3More.dot, V3More.horizontal,
    childPosition1, childPosition2.
  cbn [V3.x V3.y V3.z V3.subVectors].
  split; [apply H3; nra|]. split; [apply H3; nra|].
  split; [nra|]. split; [nra|]. split; [pose proof (COS_bound a); nra|].
  replace (_ + _ + _) with ((6 * sin (a / 2)) * (6 * sin (a / 2))) by nra.
  apply sqrt_square. lra.
Qed.

Lemma branch_angles_witness :
  reachable 800 600 (mainWorld 800 600) /\
  exists p1 p2,
    positionOf childSphere1 (mainWorld 800 600) = Some p1 /\
    positionOf childSphere2 (mainWorld 800 600) = Some p2 /\
    V3More.dot (V3More.horizontal p1) (V3More.horizontal p2) = 9 * cos (PI / 4).
Proof.
  split; [apply reachable_mainWorld|].
  destruct (branch_angles 800 600 _ (reachable_mainWorld 800 600))
    as (p1 & p2 & H1 & H2 & _ & _ & H3 & _).
  now exists p1, p2.
Defined.



(** X17.  How the page starts.  Without a canvas [main] returns at once and
    leaves every variable as the script declares it: nothing is built.
    With a canvas that gives no WebGL context the constructor of the
    renderer throws.  Otherwise, in a window of non-zero height, [main]
    runs to its end and the page starts like this: eight children in the
    scene (the root, the two children, the two edges, the grid, the axes,
    the camera helper, in this order), the root at the origin, the children
    where 45 degrees puts them, the camera at 75 degrees with planes 0.1
    and 50 and the aspect ratio of the window, and [createEdge] called
    exactly twice. *)
Theorem main_initial_state (innerWidth innerHeight : R) :
  main None innerWidth innerHeight boot = Some (tt, boot) /\
  main (Some {| webgl := false |}) innerWidth innerHeight boot = None /\
  (innerHeight <> 0 ->
   exists w m c1 c2 e1 e2 g ax ch,
    main (Some {| webgl := true |}) innerWidth innerHeight boot = Some (tt, w) /\
    mainSphere w = Some m /\ childSphere1 w = Some c1 /\ childSphere2 w = Some c2 /\
    edge1 w = Some e1 /\ edge2 w = Some e2 /\ cameraHelper w = Some ch /\
    childrenOf w = [m; c1; c2; e1; e2; g; ax; ch] /\
    List.NoDup (childrenOf w) /\
    (geometry <$> heap w !! m = Some (SphereGeometry 0.5 32 32) /\
     geometry <$> heap w !! c1 = Some (SphereGeometry 0.5 32 32) /\
     geometry <$> heap w !! c2 = Some (SphereGeometry 0.5 32 32) /\
     geometry <$> heap w !! g = Some (GridHelper 20 20) /\
     geometry <$> heap w !! ax = Some (AxisGroup 5)) /\
    (color <$> heap w !! m = Some 0x44aa88%Z /\
     color <$> heap w !! c1 = Some 0x4488aa%Z /\
     color <$> heap w !! c2 = Some 0x4488aa%Z /\
     color <$> heap w !! e1 = Some 0xaaaaaa%Z /\
     color <$> heap w !! e2 = Some 0xaaaaaa%Z) /\
    positionOf mainSphere w = Some (V3.mk 0 0 0) /\
    positionOf childSphere1 w = Some (childPosition1 (PI / 4)) /\
    positionOf childSphere2 w = Some (childPosition2 (PI / 4)) /\
    heap w !! e1 = Some (edgeMesh (V3.mk 0 0 0) (childPosition1 (PI / 4))) /\
    heap w !! e2 = Some (edgeMesh (V3.mk 0 0 0) (childPosition2 (PI / 4))) /\
    camera w = Some (PerspectiveCamera 75 (innerWidth / innerHeight) 0.1 50) /\
    renderer w = Some (innerWidth, innerHeight) /\
    angleBetweenChildren w = PI / 4 /\ fov w = 75 /\ near w = 0.1 /\ far w = 50 /\
    length (createEdgeCalls w) = 2%nat).
Proof.
  split; [reflexivity|]. split; [reflexivity|]. intros _.
  exists (mainWorld innerWidth innerHeight),
         0%nat, 1%nat, 2%nat, 3%nat, 4%nat, 5%nat, 6%nat, 7%nat.
  split; [apply main_spec|].
  pose proof (WF_mainWorld innerWidth innerHeight) as Hw.
  destruct (WF_positions _ Hw) as (Pm & P1 & P2).
  do 7 (split; [reflexivity|]).
  split; [repeat (constructor; [cbn; lia|]); constructor|].
  unfold mainWorld in *. cbv zeta in *. cbn [heap] in *.
  split; [repeat split; lookups; reflexivity|].
  split; [repeat split; lookups; reflexivity|].
  split; [exact Pm|]. split; [exact P1|]. split; [exact P2|].
  split; [lookups; reflexivity|]. split; [lookups; reflexivity|].
  now repeat split.
Qed.

Lemma main_initial_state_witness :
  600 <> 0 /\
  exists w, main (Some {| webgl := true |}) 800 600 boot = Some (tt, w) /\
            childrenOf w = [0; 1; 2; 3; 4; 5; 6; 7]%nat /\
            camera w = Some (PerspectiveCamera 75 (800 / 600) 0.1 50).
Proof.
  assert (H : 600 <> 0) by lra.
  split; [exact H|].
  destruct (proj2 (proj2 (main_initial_state 800 600)) H)
    as (w & m & c1 & c2 & e1 & e2 & g & ax & ch & Hm & _ & _ & _ & _ & _ & _ & Hc
        & _ & _ & _ & _ & _ & _ & _ & _ & Hcam & _).
  exists w. split; [exact Hm|]. split; [|exact Hcam].
  rewrite main_spec in Hm. injection Hm as <-. reflexivity.
Defined.


(** * How the handlers compose *)

Lemma resized_resized (a b c d : R) (w : World) :
  resized c d (resized a b w) = resized c d w.
Proof.
  destruct w as [hp nx rd sc cm ms cs1 cs2 oe1 oe2 ch fv nr fr an calls].
  unfold resized. cbv zeta. setters. now rewrite insert_insert_eq.
Qed.

(** X18.  Of two resizes in a row only the second counts: the state is the
    one that the second resize alone leads to. *)
Theorem resize_last_wins (innerWidth innerHeight : R) (w : World) (a b c d : R) :
  reachable innerWidth innerHeight w ->
  run [WindowResize a b; WindowResize c d] w = run [WindowResize c d] w /\
  exists w', run [WindowResize c d] w = Some (tt, w') /\ aspectOf w' = c / d.
Proof.
  intros Hr. pose proof (reachable_WF _ _ w Hr) as Hw.
  assert (H1 : dispatch (WindowResize a b) w = Some (tt, resized a b w))
    by exact (onWindowResize_resized a b w Hw).
  assert (H2 : dispatch (WindowResize c d) (resized a b w)
               = Some (tt, resized c d (resized a b w)))
    by exact (onWindowResize_resized c d _ (WF_resized a b w Hw)).
  assert (H3 : dispatch (WindowResize c d) w = Some (tt, resized c d w))
    by exact (onWindowResize_resized c d w Hw).
  rewrite (run_cons _ _ w _ H1), (run_cons _ _ _ _ H2), (run_cons _ _ w _ H3).
  rewrite resized_resized. split; [reflexivity|].
  exists (resized c d w). split; [reflexivity|]. now destruct w.
Qed.

Lemma resize_last_wins_witness :
  reachable 800 600 (mainWorld 800 600) /\
  run [WindowResize 640 480; WindowResize 1024 768] (mainWorld 800 600)
  = run [WindowResize 1024 768] (mainWorld 800 600).
Proof.
  split; [apply reachable_mainWorld|].
  apply (resize_last_wins 800 600 _ 640 480 1024 768), reachable_mainWorld.
Defined.

(** ** Keys for different parameters *)

Lemma cameraKey_cameraKey (a b c a' b' c' : R -> R) (w : World) :
  cameraKey a b c (cameraKey a' b' c' w) =
  cameraKey (fun v => a (a' v)) (fun v => b (b' v)) (fun v => c (c' v)) w.
Proof.
  destruct w as [hp nx rd sc cm ms cs1 cs2 oe1 oe2 ch fv nr fr an calls].
  unfold cameraKey, reframed, aspectOf. cbv zeta. setters.
  now rewrite insert_insert_eq.
Qed.

Lemma angleKey_cameraKey (f a b c : R -> R) (w : World) :
  (8 <= next w)%nat ->
  angleKey f (cameraKey a b c w) = cameraKey a b c (angleKey f w).
Proof.
  intros Hn.
  destruct w as [hp nx rd sc cm ms cs1 cs2 oe1 oe2 ch fv nr fr an calls].
  cbn in Hn. unfold angleKey, cameraKey, rebuilt, reframed, aspectOf.
  cbv zeta. setters. cbn [default]. f_equal.
  rewrite (insert_insert_ne _ 7%nat (S nx)) by lia.
  rewrite (insert_insert_ne _ 7%nat nx) by lia.
  rewrite (insert_insert_ne _ 7%nat 2%nat) by lia.
  rewrite (insert_insert_ne _ 7%nat 1%nat) by lia.
  reflexivity.
Qed.

(** Every key leads to the state given by [angleKey] or [cameraKey]. *)
Lemma onKeyDown_moves (key : string) (w : World) :
  WF w ->
  onKeyDown key w =
  Some (tt,
    match parameterOf key with
    | Some Angle =>
        angleKey (if decide (key = "ArrowLeft") then fun v => Rmax 0 (v - PI / 36)
                  else fun v => Rmin PI (v + PI / 36)) w
    | Some Fov =>
        cameraKey (if decide (key = "f") then fun v => Rmax 10 (v - 5)
                   else fun v => Rmin 120 (v + 5)) id id w
    | Some Near =>
        cameraKey id (if decide (key = "n") then fun v => Rmax 0.1 (v - 0.1)
                      else fun v => Rmin 10 (v + 0.1)) id w
    | Some Far =>
        cameraKey id id (if decide (key = "r") then fun v => Rmax 10 (v - 5)
                         else fun v => Rmin 100 (v + 5)) w
    | None => w
    end).
Proof.
  intros Hw. unfold parameterOf.
  destruct (decide (key = "ArrowLeft")) as [->|N1];
    [rewrite (onKeyDown_ArrowLeft w Hw); reflexivity|].
  destruct (decide (key = "ArrowRight")) as [->|N2];
    [rewrite (onKeyDown_ArrowRight w Hw); reflexivity|].
  destruct (decide (key = "f")) as [->|N3];
    [rewrite (onKeyDown_f w Hw); now destruct w|].
  destruct (decide (key = "F")) as [->|N4];
    [rewrite (onKeyDown_F w Hw); now destruct w|].
  destruct (decide (key = "n")) as [->|N5];
    [rewrite (onKeyDown_n w Hw); now destruct w|].
  destruct (decide (key = "N")) as [->|N6];
    [rewrite (onKeyDown_N w Hw); now destruct w|].
  destruct (decide (key = "r")) as [->|N7];
    [rewrite (onKeyDown_r w Hw); now destruct w|].
  destruct (decide (key = "R")) as [->|N8];
    [rewrite (onKeyDown_R w Hw); now destruct w|].
  apply onKeyDown_other.
  repeat (apply not_elem_of_cons; split; [assumption|]). apply not_elem_of_nil.
Qed.

(** X19.  Keys that move different parameters commute: pressed in either
    order they lead to the very same state, objects and handles included.
    (Keys for the same parameter do not, at its bounds.) *)
Theorem keys_commute (innerWidth innerHeight : R) (w : World) (ka kb : string) :
  reachable innerWidth innerHeight w ->
  parameterOf ka <> parameterOf kb ->
  press [ka; kb] w = press [kb; ka] w /\
  exists w', press [ka; kb] w = Some (tt, w').
Proof.
  intros Hr Hpar. pose proof (reachable_WF _ _ w Hr) as Hw.
  destruct (WF_onKeyDown ka w Hw) as (wa & Ha & Hwa).
  destruct (WF_onKeyDown kb w Hw) as (wb & Hb & Hwb).
  destruct (WF_onKeyDown kb wa Hwa) as (wab & Hab & _).
  destruct (WF_onKeyDown ka wb Hwb) as (wba & Hba & _).
  rewrite (press_cons ka [kb] w wa Ha), (press_cons kb [] wa wab Hab).
  rewrite (press_cons kb [ka] w wb Hb), (press_cons ka [] wb wba Hba).
  assert (E : wab = wba); [|split; [now rewrite E|now exists wab]].
  pose proof (wf_next w Hw) as Hn.
  rewrite (onKeyDown_moves ka w Hw) in Ha. injection Ha as <-.
  rewrite (onKeyDown_moves kb w Hw) in Hb. injection Hb as <-.
  rewrite (onKeyDown_moves kb _ Hwa) in Hab. injection Hab as <-.
  rewrite (onKeyDown_moves ka _ Hwb) in Hba. injection Hba as <-.
  destruct (parameterOf ka) as [[]|], (parameterOf kb) as [[]|];
    try congruence; try reflexivity;
    rewrite ?cameraKey_cameraKey; try reflexivity;
    first [ now rewrite angleKey_cameraKey by exact Hn
          | now rewrite <- angleKey_cameraKey by exact Hn ].
Qed.

Lemma keys_commute_witness :
  reachable 800 600 (mainWorld 800 600) /\
  parameterOf "ArrowLeft" <> parameterOf "F" /\
  press ["ArrowLeft"; "F"] (mainWorld 800 600)
  = press ["F"; "ArrowLeft"] (mainWorld 800 600).
Proof.
  assert (Hp : parameterOf "ArrowLeft" <> parameterOf "F") by discriminate.
  split; [apply reachable_mainWorld|]. split; [exact Hp|].
  exact (proj1 (keys_commute 800 600 _ "ArrowLeft" "F"
                  (reachable_mainWorld 800 600) Hp)).
Defined.


(** ** A camera key and its opposite *)

(** In a state of the page the camera and its helper are up to date:
    [updateCamera] would change nothing. *)
Lemma reframed_id (w : World) : WF w -> reframed w = w.
Proof.
  intros Hw. pose proof (wf_camera w Hw) as Hc. pose proof (wf_helper w Hw) as Hh.
  destruct w as [hp nx rd sc cm ms cs1 cs2 oe1 oe2 ch fv nr fr an calls].
  unfold cameraInSync in Hc. unfold reframed. cbv zeta.
  cbn [heap camera fov near far] in *. setters.
  rewrite <- Hc. now rewrite (insert_id _ _ _ Hh).
Qed.

Lemma reframed_fov_twice (v v' : R) (w : World) :
  reframed (set_fov v (reframed (set_fov v' w))) = reframed (set_fov v w).
Proof.
  destruct w as [hp nx rd sc cm ms cs1 cs2 oe1 oe2 ch fv nr fr an calls].
  unfold reframed, aspectOf. cbv zeta. setters. now rewrite insert_insert_eq.
Qed.

Lemma reframed_far_twice (v v' : R) (w : World) :
  reframed (set_far v (reframed (set_far v' w))) = reframed (set_far v w).
Proof.
  destruct w as [hp nx rd sc cm ms cs1 cs2 oe1 oe2 ch fv nr fr an calls].
  unfold reframed, aspectOf. cbv zeta. setters. now rewrite insert_insert_eq.
Qed.

Lemma set_fov_same (w : World) : set_fov (fov w) w = w.
Proof. now destruct w. Qed.

Lemma set_far_same (w : World) : set_far (far w) w = w.
Proof. now destruct w. Qed.

Lemma fov_reframed (v : R) (w : World) : fov (reframed (set_fov v w)) = v.
Proof. now destruct w. Qed.

Lemma far_reframed (v : R) (w : World) : far (reframed (set_far v w)) = v.
Proof. now destruct w. Qed.

Lemma onKeyDown_WF (key : string) (w w' : World) :
  WF w -> onKeyDown key w = Some (tt, w') -> WF w'.
Proof. intros Hw Hk. exact (WF_step w w' (KeyDown key) Hw Hk). Qed.

(** Two keys that end where they started. *)
Lemma press_back (k1 k2 : string) (w w1 : World) :
  WF w -> onKeyDown k1 w = Some (tt, w1) -> onKeyDown k2 w1 = Some (tt, w) ->
  press [k1; k2] w = Some (tt, w).
Proof.
  intros Hw H1 H2.
  now rewrite (press_cons k1 [k2] w w1 H1), (press_cons k2 [] w1 w H2).
Qed.

(** X7.  A key of the field of view or of the far plane is undone by its
    opposite, unless the value is at the bound that the first key runs
    into: the page is then back in the very state it was in, camera and
    helper included.  (Both parameters are whole multiples of 5, so that a
    value short of its bound has room for a whole step.) *)
Theorem camera_keys_undo (innerWidth innerHeight : R) (w : World) :
  reachable innerWidth innerHeight w ->
  (fov w < 120 -> press ["F"; "f"] w = Some (tt, w)) /\
  (10 < fov w -> press ["f"; "F"] w = Some (tt, w)) /\
  (far w < 100 -> press ["R"; "r"] w = Some (tt, w)) /\
  (10 < far w -> press ["r"; "R"] w = Some (tt, w)).
Proof.
  intros Hr. pose proof (reachable_WF _ _ w Hr) as Hw.
  destruct (reachable_on_grid _ _ w Hr) as (_ & (k & Hk & Ek) & _ & (m & Hm & Em)).
  split; [|split; [|split]]; intros Hb.
  - assert (H1 := onKeyDown_F w Hw).
    eapply press_back; [exact Hw|exact H1|].
    rewrite onKeyDown_f by exact (onKeyDown_WF _ _ _ Hw H1).
    rewrite fov_reframed, reframed_fov_twice.
    assert (E : Rmax 10 (Rmin 120 (fov w + 5) - 5) = fov w).
    { assert (IZR k <= 23) by (apply IZR_le; destruct (Z_le_gt_dec k 23); [assumption|];
                               exfalso; assert (24 <= IZR k) by (apply IZR_le; lia); lra).
      assert (2 <= IZR k) by (apply IZR_le; lia).
      unfold Rmax, Rmin. repeat destruct (Rle_dec _ _); lra. }
    now rewrite E, set_fov_same, reframed_id.
  - assert (H1 := onKeyDown_f w Hw).
    eapply press_back; [exact Hw|exact H1|].
    rewrite onKeyDown_F by exact (onKeyDown_WF _ _ _ Hw H1).
    rewrite fov_reframed, reframed_fov_twice.
    assert (E : Rmin 120 (Rmax 10 (fov w - 5) + 5) = fov w).
    { assert (3 <= IZR k) by (apply IZR_le; destruct (Z_le_gt_dec 3 k); [assumption|];
                              exfalso; assert (IZR k <= 2) by (apply IZR_le; lia); lra).
      assert (IZR k <= 24) by (apply IZR_le; lia).
      unfold Rmax, Rmin. repeat destruct (Rle_dec _ _); lra. }
    now rewrite E, set_fov_same, reframed_id.
  - assert (H1 := onKeyDown_R w Hw).
    eapply press_back; [exact Hw|exact H1|].
    rewrite onKeyDown_r by exact (onKeyDown_WF _ _ _ Hw H1).
    rewrite far_reframed, reframed_far_twice.
    assert (E : Rmax 10 (Rmin 100 (far w + 5) - 5) = far w).
    { assert (IZR m <= 19) by (apply IZR_le; destruct (Z_le_gt_dec m 19); [assumption|];
                               exfalso; assert (20 <= IZR m) by (apply IZR_le; lia); lra).
      assert (2 <= IZR m) by (apply IZR_le; lia).
      unfold Rmax, Rmin. repeat destruct (Rle_dec _ _); lra. }
    now rewrite E, set_far_same, reframed_id.
  - assert (H1 := onKeyDown_r w Hw).
    eapply press_back; [exact Hw|exact H1|].
    rewrite onKeyDown_R by exact (onKeyDown_WF _ _ _ Hw H1).
    rewrite far_reframed, reframed_far_twice.
    assert (E : Rmin 100 (Rmax 10 (far w - 5) + 5) = far w).
    { assert (3 <= IZR m) by (apply IZR_le; destruct (Z_le_gt_dec 3 m); [assumption|];
                              exfalso; assert (IZR m <= 2) by (apply IZR_le; lia); lra).
      assert (IZR m <= 20) by (apply IZR_le; lia).
      unfold Rmax, Rmin. repeat destruct (Rle_dec _ _); lra. }
    now rewrite E, set_far_same, reframed_id.
Qed.

Lemma camera_keys_undo_witness :
  reachable 800 600 (mainWorld 800 600) /\
  fov (mainWorld 800 600) < 120 /\
  press ["F"; "f"] (mainWorld 800 600) = Some (tt, mainWorld 800 600).
Proof.
  assert (Hlt : fov (mainWorld 800 600) < 120)
    by (change (fov (mainWorld 800 600)) with 75; lra).
  split; [apply reachable_mainWorld|]. split; [exact Hlt|].
  exact (proj1 (camera_keys_undo 800 600 _ (reachable_mainWorld 800 600)) Hlt).
Defined.
